(** * pack8s: the podman session handle (internal/pkg/podman/podman.go)

    A shallow embedding of the Go package [podman]: the error formatter
    [SprintError], the handle constructor [NewHandle], the prefix queries,
    the retrying [PullImage] and the interactive [Terminal].

    Go strings are byte sequences and are modelled by [string]; a slice that
    is only read or appended to is a [list]; an [error] interface value is an
    inductive type with one constructor per dynamic type the code inspects.
    Calls that leave the package (varlink RPCs, files, the terminal, the
    clock, the logger) are nodes of a program tree whose answers are chosen
    by the environment. *)

From Stdlib Require Import String Ascii List Bool Arith ZArith Lia DecimalString.
Import ListNotations.
Local Open Scope string_scope.

(** ** Strings and formatting verbs *)

(** The line feed written by ["\n"]. *)
Definition nl : string := String (ascii_of_nat 10) EmptyString.

(** [strings.HasPrefix]:
    [len(s) >= len(prefix) && s[0:len(prefix)] == prefix]. *)
Definition HasPrefix (s prefix : string) : bool :=
  Nat.leb (String.length prefix) (String.length s)
  && String.eqb (substring 0 (String.length prefix) s) prefix.

(** The verb [%d] on a non-negative integer. *)
Definition fmt_d (n : nat) : string := NilZero.string_of_uint (Nat.to_uint n).

(** [Contains s sub]: the bytes of [sub] occur, in order and adjacent, in [s]. *)
Definition Contains (s sub : string) : Prop :=
  exists pre post, s = pre ++ sub ++ post.

(** The same, computed: [sub] is a prefix of [s] or occurs further on. *)
Fixpoint containsb (s sub : string) : bool :=
  HasPrefix s sub
  || match s with
     | EmptyString => false
     | String _ s' => containsb s' sub
     end.

(** ** Declarations of the packages the file imports

    [iopodman] (generated from the varlink interface) and [varlink] are not
    part of the sources at hand: the types the code only passes around are
    kept abstract. *)
Class Imported : Type := {
  context : Type;                 (* context.Context *)
  Connection : Type;              (* *varlink.Connection *)
  File : Type;                    (* *os.File *)
  Fd : File -> nat;               (* the Fd method of os.File *)
  State : Type;                   (* *terminal.State *)
  Writer : Type;                  (* io.Writer *)
  Create : Type;                  (* iopodman.Create *)
  PodContainerErrorData : Type;   (* iopodman.PodContainerErrorData *)
  Parameters : Type               (* the Parameters field of varlink.Error *)
}.

Section Package.
Context {imp : Imported}.

(** ** Error values

    An [error] is [nil] or a value of some dynamic type. The pointer types
    named by the type switch of [SprintError] have a constructor each, for
    a pointer to a value as the varlink calls produce it, carrying the
    fields the code reads, and [nil_pointer] is a nil pointer of one of these
    types held by a non-nil interface; [io.EOF] and [io.ErrUnexpectedEOF]
    are the two sentinels compared by identity; [errorString] is what
    [fmt.Errorf] and [errors.New] build; [other] is any remaining dynamic
    type, given by the name [%T] prints and the text of its [Error()]. *)
Inductive pointer_type : Type :=
| p_ImageNotFound
| p_ContainerNotFound
| p_NoContainerRunning
| p_PodNotFound
| p_PodContainerError
| p_NoContainersInPod
| p_ErrorOccurred
| p_RuntimeError
| p_InvalidParameter
| p_MethodNotFound
| p_MethodNotImplemented
| p_InterfaceNotFound
| p_varlink_Error.

Inductive error : Type :=
| nil
| ImageNotFound (Id : string)
| ContainerNotFound (Id : string)
| NoContainerRunning
| PodNotFound (Name : string)
| PodContainerError (Podname : string) (Errors : list PodContainerErrorData)
| NoContainersInPod (Name : string)
| ErrorOccurred (Reason : string)
| RuntimeError (Reason : string)
| InvalidParameter (Parameter_ : string)
| MethodNotFound (Method : string)
| MethodNotImplemented (Method : string)
| InterfaceNotFound (Interface : string)
| varlink_Error (Params : Parameters)
| nil_pointer (t : pointer_type)
| io_EOF
| io_ErrUnexpectedEOF
| errorString (s : string)
| other (dynamic_type : string) (message : string).

(** [err != nil] *)
Definition is_nil (err : error) : bool :=
  match err with nil => true | _ => false end.

(** What the imported packages print: the [Error()] methods of the generated
    and varlink error types, and the [%v] form of the two field values that
    are not strings. *)
Class Rendering : Type := {
  generated_Error : error -> string;
  fmt_v_Errors : list PodContainerErrorData -> string;
  fmt_v_Parameters : Parameters -> string
}.
Context {rnd : Rendering}.

(** The verb [%v] on an error: [<nil>] for the nil interface, the text of
    [Error()] otherwise. For a nil pointer of a type of the switch it is what
    [fmt] prints for it, which depends on the [Error()] method of the
    imported type and is part of the rendering. *)
Definition fmt_v (err : error) : string :=
  match err with
  | nil => "<nil>"
  | io_EOF => "EOF"
  | io_ErrUnexpectedEOF => "unexpected EOF"
  | errorString s => s
  | other _ message => message
  | e => generated_Error e
  end.

(** The names of the pointer types of the type switch. *)
Definition pointer_type_name (t : pointer_type) : string :=
  match t with
  | p_ImageNotFound => "*iopodman.ImageNotFound"
  | p_ContainerNotFound => "*iopodman.ContainerNotFound"
  | p_NoContainerRunning => "*iopodman.NoContainerRunning"
  | p_PodNotFound => "*iopodman.PodNotFound"
  | p_PodContainerError => "*iopodman.PodContainerError"
  | p_NoContainersInPod => "*iopodman.NoContainersInPod"
  | p_ErrorOccurred => "*iopodman.ErrorOccurred"
  | p_RuntimeError => "*iopodman.RuntimeError"
  | p_InvalidParameter => "*varlink.InvalidParameter"
  | p_MethodNotFound => "*varlink.MethodNotFound"
  | p_MethodNotImplemented => "*varlink.MethodNotImplemented"
  | p_InterfaceNotFound => "*varlink.InterfaceNotFound"
  | p_varlink_Error => "*varlink.Error"
  end.

(** The verb [%T]: the dynamic type. *)
Definition fmt_T (err : error) : string :=
  match err with
  | nil => "<nil>"
  | ImageNotFound _ => pointer_type_name p_ImageNotFound
  | ContainerNotFound _ => pointer_type_name p_ContainerNotFound
  | NoContainerRunning => pointer_type_name p_NoContainerRunning
  | PodNotFound _ => pointer_type_name p_PodNotFound
  | PodContainerError _ _ => pointer_type_name p_PodContainerError
  | NoContainersInPod _ => pointer_type_name p_NoContainersInPod
  | ErrorOccurred _ => pointer_type_name p_ErrorOccurred
  | RuntimeError _ => pointer_type_name p_RuntimeError
  | InvalidParameter _ => pointer_type_name p_InvalidParameter
  | MethodNotFound _ => pointer_type_name p_MethodNotFound
  | MethodNotImplemented _ => pointer_type_name p_MethodNotImplemented
  | InterfaceNotFound _ => pointer_type_name p_InterfaceNotFound
  | varlink_Error _ => pointer_type_name p_varlink_Error
  | nil_pointer t => pointer_type_name t
  | io_EOF | io_ErrUnexpectedEOF | errorString _ => "*errors.errorString"
  | other dynamic_type _ => dynamic_type
  end.

(** [fmt.Errorf] with a format that has no [%w]. *)
Definition fmt_Errorf (message : string) : error := errorString message.

(** ** SprintError

    podman.go, lines 25-86. The result is [None] when the function panics
    instead of returning: a case of the type switch matches a nil pointer of
    its type as well, and every case but the one of [NoContainerRunning]
    reads a field of the pointer ([e.Id], [e.Name], [e.Reason], ...) to pass
    it to [Fprintf], which dereferences it. *)
Definition SprintError (methodname : string) (err : error) : option string :=
  let buf := "Error calling " ++ methodname ++ ": " in
  option_map (append buf)
    match err with
    | ImageNotFound Id as e => Some ("'" ++ fmt_v e ++ "' name='" ++ Id ++ "'" ++ nl)
    | ContainerNotFound Id as e => Some ("'" ++ fmt_v e ++ "' name='" ++ Id ++ "'" ++ nl)
    | NoContainerRunning as e => Some ("'" ++ fmt_v e ++ "'" ++ nl)
    | PodNotFound Name as e => Some ("'" ++ fmt_v e ++ "' name='" ++ Name ++ "'" ++ nl)
    | PodContainerError Podname Errors as e =>
        Some ("'" ++ fmt_v e ++ "' podname='" ++ Podname
                  ++ "' errors='" ++ fmt_v_Errors Errors ++ "'" ++ nl)
    | NoContainersInPod Name as e =>
        Some ("'" ++ fmt_v e ++ "' name='" ++ Name ++ "'" ++ nl)
    | ErrorOccurred Reason as e =>
        Some ("'" ++ fmt_v e ++ "' reason='" ++ Reason ++ "'" ++ nl)
    | RuntimeError Reason as e =>
        Some ("'" ++ fmt_v e ++ "' reason='" ++ Reason ++ "'" ++ nl)
    | InvalidParameter Parameter_ as e =>
        Some ("'" ++ fmt_v e ++ "' parameter='" ++ Parameter_ ++ "'" ++ nl)
    | MethodNotFound Method as e =>
        Some ("'" ++ fmt_v e ++ "' method='" ++ Method ++ "'" ++ nl)
    | MethodNotImplemented Method as e =>
        Some ("'" ++ fmt_v e ++ "' method='" ++ Method ++ "'" ++ nl)
    | InterfaceNotFound Interface as e =>
        Some ("'" ++ fmt_v e ++ "' interface='" ++ Interface ++ "'" ++ nl)
    | varlink_Error Params as e =>
        Some ("'" ++ fmt_v e ++ "' parameters='" ++ fmt_v_Parameters Params ++ "'" ++ nl)
    | nil_pointer p_NoContainerRunning as e => Some ("'" ++ fmt_v e ++ "'" ++ nl)
    | nil_pointer _ => None
    | io_EOF => Some ("Connection closed" ++ nl)
    | io_ErrUnexpectedEOF => Some ("Connection aborted" ++ nl)
    | e => Some (fmt_T e ++ " - '" ++ fmt_v e ++ "'" ++ nl)
    end.

(** The nil pointers a case of the switch reads a field of. *)
Definition reads_nil_pointer (err : error) : bool :=
  match err with
  | nil_pointer p_NoContainerRunning => false
  | nil_pointer _ => true
  | _ => false
  end.

(** The dynamic types the type switch of [SprintError] has a case for. *)
Definition recognized (err : error) : bool :=
  match err with
  | nil | io_EOF | io_ErrUnexpectedEOF | errorString _ | other _ _ => false
  | _ => true
  end.

(** ** Records of the generated package *)

(** Modelled from the spec: the declaration of iopodman.Container is not in
    the sources. The code reads [Id] and [Names]; the spec describes the
    record as identifier, display name(s) and engine-reported status. *)
Record Container : Type := { Id : string; Names : string; Status : string }.

(** Modelled from the spec: the declaration of iopodman.Volume is not in the
    sources. The record has a name and a host mount path. *)
Record Volume : Type := { Name : string; MountPoint : string }.

(** The zero values [iopodman.Container{}] and [iopodman.Volume{}]. *)
Definition Container_zero : Container := {| Id := ""; Names := ""; Status := "" |}.
Definition Volume_zero : Volume := {| Name := ""; MountPoint := "" |}.

(** The reply of GetAttachSockets; the code reads [Io_socket]. *)
Record Sockets : Type := { Io_socket : string }.

Record ExecOpts : Type :=
  { exec_Name : string; exec_Tty : bool; exec_Privileged : bool; exec_Cmd : list string }.

Record VolumeRemoveOpts : Type := { Volumes : list string; Force : bool }.

Record VolumeCreateOpts : Type := { VolumeName : string }.

Record Handle : Type := { ctx : context; conn : Connection }.

Definition DefaultSocket : string := "unix:/run/podman/io.podman".
Definition LabelGeneration : string := "io.kubevirt/pack8s.generation".

(** [os.O_RDWR] and the permission bits [0644]. *)
Definition O_RDWR : nat := 2.
Definition perm_0644 : nat := 420.

(** ** Programs

    An argument of [log.Printf]. *)
Inductive logarg : Type :=
| a_string (s : string)
| a_int (n : nat)
| a_bool (b : bool)
| a_error (e : error).

(** How a stream copy ends: the source reached end-of-stream, or a read or
    a write failed. *)
Inductive copy_end : Type :=
| end_of_stream
| copy_failed (e : error).

(** The calls that leave the package, indexed by the type of their answer. *)
Inductive call : Type -> Type :=
| log_Printf (format : string) (args : list logarg) : call unit
| time_Sleep (seconds : nat) : call unit
| varlink_NewConnection (c : context) (address : string) : call (Connection * error)
| Connection_Close (cn : Connection) : call error
| os_OpenFile (name : string) (flag perm : nat) : call (File * error)
| File_Close (f : File) : call error
| terminal_MakeRaw (fd : nat) : call (State * error)
| terminal_Restore (fd : nat) (state : State) : call error
| terminal_IsTerminal (fd : nat) : call bool
| signal_Notify : call unit
| signal_receive : call unit
| copy_stream (dst src : File) : call (nat * copy_end)
| Attach_Call (c : context) (cn : Connection)
    (container detachKeys : string) (start : bool) : call error
| GetAttachSockets_Call (c : context) (cn : Connection) (container : string)
    : call (Sockets * error)
| ExecContainer_Call (c : context) (cn : Connection) (opts : ExecOpts) : call error
| ListContainers_Call (c : context) (cn : Connection) : call (list Container * error)
| GetVolumes_Call (c : context) (cn : Connection) (args : list string) (all : bool)
    : call (list Volume * error)
| VolumeRemove_Call (c : context) (cn : Connection) (opts : VolumeRemoveOpts)
    : call (list string * list string * error)
| RemoveContainer_Call (c : context) (cn : Connection)
    (id : string) (force removeVolumes : bool) : call (string * error)
| VolumeCreate_Call (c : context) (cn : Connection) (opts : VolumeCreateOpts)
    : call (string * error)
| CreateContainer_Call (c : context) (cn : Connection) (conf : Create)
    : call (string * error)
| StopContainer_Call (c : context) (cn : Connection) (name : string) (timeout : Z)
    : call (string * error)
| StartContainer_Call (c : context) (cn : Connection) (contID : string)
    : call (string * error)
| WaitContainer_Call (c : context) (cn : Connection) (name : string) (interval : Z)
    : call (Z * error)
| PullImage_Call (c : context) (cn : Connection) (ref : string) : call (string * error).

(** A program returning an [A]: it returns, performs a call and goes on with
    the answer, or uses one of the statements on goroutines and unbuffered
    channels of errors. A channel is named by a number. *)
Inductive prog (A : Type) : Type :=
| Ret (a : A)
| Do {X : Type} (c : call X) (k : X -> prog A)
| MakeChan (k : nat -> prog A)
| Send (ch : nat) (v : error) (k : prog A)
| Recv (ch : nat) (k : error -> prog A)
| CloseChan (ch : nat) (k : prog A)
| Go (g : prog unit) (k : prog A).

Arguments Ret {A} a.
Arguments Do {A X} c k.
Arguments MakeChan {A} k.
Arguments Send {A} ch v k.
Arguments Recv {A} ch k.
Arguments CloseChan {A} ch k.
Arguments Go {A} g k.

Fixpoint bind {A B : Type} (p : prog A) (f : A -> prog B) : prog B :=
  match p with
  | Ret a => f a
  | Do c k => Do c (fun x => bind (k x) f)
  | MakeChan k => MakeChan (fun ch => bind (k ch) f)
  | Send ch v k => Send ch v (bind k f)
  | Recv ch k => Recv ch (fun v => bind (k v) f)
  | CloseChan ch k => CloseChan ch (bind k f)
  | Go g k => Go g (bind k f)
  end.

Definition perform {X : Type} (c : call X) : prog X := Do c Ret.
Definition make_chan : prog nat := MakeChan Ret.
Definition send (ch : nat) (v : error) : prog unit := Send ch v (Ret tt).
Definition recv (ch : nat) : prog error := Recv ch Ret.
Definition close (ch : nat) : prog unit := CloseChan ch (Ret tt).
Definition go (g : prog unit) : prog unit := Go g (Ret tt).

End Package.

Arguments Ret {imp A} a.
Arguments Do {imp A X} c k.
Arguments MakeChan {imp A} k.
Arguments Send {imp A} ch v k.
Arguments Recv {imp A} ch k.
Arguments CloseChan {imp A} ch k.
Arguments Go {imp A} g k.

Notation "x <- p ;; q" := (bind p (fun x => q))
  (at level 61, p at next level, right associativity).
Notation "' pat <- p ;; q" := (bind p (fun x => match x with pat => q end))
  (at level 61, pat pattern, p at next level, right associativity).
Notation "p ;; q" := (bind p (fun _ => q))
  (at level 61, right associativity).

Section Operations.
Context {imp : Imported} {rnd : Rendering}.

(** ** Statements of the language *)

(** A [defer] statement: the deferred call runs when the rest of the function
    body has produced its result, so that later defers run first. *)
Definition defer {A X : Type} (deferred : prog X) (rest : prog A) : prog A :=
  r <- rest ;; deferred ;; Ret r.

(** [for _, x := range xs { st = body(x, st) }] *)
Fixpoint for_range {X St : Type} (xs : list X) (st : St)
    (body : X -> St -> prog St) : prog St :=
  match xs with
  | [] => Ret st
  | x :: xs' => st' <- body x st ;; for_range xs' st' body
  end.

(** [for idx, x := range xs { body }; after], where the body either returns
    a value from the function ([Some]) or goes on to the next element
    ([None], also by [continue]). *)
Fixpoint for_range_return {X R : Type} (idx : nat) (xs : list X)
    (body : nat -> X -> prog (option R)) (after : prog R) : prog R :=
  match xs with
  | [] => after
  | x :: xs' =>
      r <- body idx x ;;
      match r with
      | Some v => Ret v
      | None => for_range_return (S idx) xs' body after
      end
  end.

(** [io.Copy]: copies until end-of-stream on the source or an error; reaching
    end-of-stream is a success and yields a nil error. *)
Definition io_Copy (dst src : File) : prog (nat * error) :=
  '(written, ended) <- perform (copy_stream dst src) ;;
  Ret (written, match ended with end_of_stream => nil | copy_failed e => e end).

(** ** The package *)

(** podman.go, lines 97-105 *)
Definition NewHandle (c : context) : prog (Handle * error) :=
  perform (log_Printf "connecting to %s" [a_string DefaultSocket]) ;;
  '(cn, err) <- perform (varlink_NewConnection c DefaultSocket) ;;
  perform (log_Printf "connected to %s" [a_string DefaultSocket]) ;;
  Ret ({| ctx := c; conn := cn |}, err).

(** The four goroutines of [Terminal], lines 135-160. *)
Definition interrupt_listener (errChan : nat) : prog unit :=
  perform signal_Notify ;;
  perform signal_receive ;;
  close errChan.

Definition copy_to_terminal (file attached : File) (errChan : nat) : prog unit :=
  '(_, err) <- io_Copy file attached ;;
  send errChan err.

Definition copy_to_socket (file attached : File) (errChan : nat) : prog unit :=
  '(_, err) <- io_Copy attached file ;;
  send errChan err.

Definition exec_call (hnd : Handle) (container : string) (args : list string)
    (file : File) (errChan : nat) : prog unit :=
  tty <- perform (terminal_IsTerminal (Fd file)) ;;
  err <- perform (ExecContainer_Call (ctx hnd) (conn hnd)
                    {| exec_Name := container; exec_Tty := tty;
                       exec_Privileged := true; exec_Cmd := args |}) ;;
  send errChan err.

(** Lines 133-162: the channel, the goroutines and the receive. *)
Definition Terminal_stream (hnd : Handle) (container : string) (args : list string)
    (file attached : File) : prog error :=
  errChan <- make_chan ;;
  go (interrupt_listener errChan) ;;
  go (copy_to_terminal file attached errChan) ;;
  go (copy_to_socket file attached errChan) ;;
  go (exec_call hnd container args file errChan) ;;
  recv errChan.

(** Lines 107-163. *)
Definition Terminal (hnd : Handle) (container : string) (args : list string)
    (file : File) : prog error :=
  let detachKeys := "" in
  let start := false in
  err <- perform (Attach_Call (ctx hnd) (conn hnd) container detachKeys start) ;;
  if negb (is_nil err) then Ret err else
  '(socks, err) <- perform (GetAttachSockets_Call (ctx hnd) (conn hnd) container) ;;
  if negb (is_nil err) then Ret err else
  '(attached, err) <- perform (os_OpenFile (Io_socket socks) O_RDWR perm_0644) ;;
  if negb (is_nil err) then Ret err else
  defer (perform (File_Close attached)) (
    '(state, err) <- perform (terminal_MakeRaw (Fd file)) ;;
    if negb (is_nil err) then Ret err else
    defer (perform (terminal_Restore (Fd file) state))
      (Terminal_stream hnd container args file attached)).

(** Lines 165-172. *)
Definition Exec (hnd : Handle) (container : string) (args : list string)
    (out : Writer) : prog error :=
  perform (ExecContainer_Call (ctx hnd) (conn hnd)
             {| exec_Name := container; exec_Tty := true;
                exec_Privileged := true; exec_Cmd := args |}).

(** Lines 174-191. *)
Definition GetPrefixedContainers (hnd : Handle) (prefix : string)
    : prog (list Container * error) :=
  let ret : list Container := [] in
  '(containers, err) <- perform (ListContainers_Call (ctx hnd) (conn hnd)) ;;
  if negb (is_nil err) then Ret (ret, err) else
  perform (log_Printf "found %d containers in the system"
             [a_int (length containers)]) ;;
  ret <- for_range containers ret (fun cont ret =>
           if HasPrefix (Names cont) prefix then
             perform (log_Printf ("matching container: %s (%s)" ++ nl)
                        [a_string (Names cont); a_string (Id cont)]) ;;
             Ret (ret ++ [cont])%list
           else Ret ret) ;;
  perform (log_Printf "found %d containers matching the prefix"
             [a_int (length ret)]) ;;
  Ret (ret, nil).

(** Lines 193-211. *)
Definition GetPrefixedVolumes (hnd : Handle) (prefix : string)
    : prog (list Volume * error) :=
  let ret : list Volume := [] in
  let args : list string := [] in
  let all := true in
  '(volumes, err) <- perform (GetVolumes_Call (ctx hnd) (conn hnd) args all) ;;
  if negb (is_nil err) then Ret (ret, err) else
  perform (log_Printf "found %d volumess in the system" [a_int (length volumes)]) ;;
  ret <- for_range volumes ret (fun vol ret =>
           if HasPrefix (Name vol) prefix then
             perform (log_Printf ("matching volume: %s @(%s)" ++ nl)
                        [a_string (Name vol); a_string (MountPoint vol)]) ;;
             Ret (ret ++ [vol])%list
           else Ret ret) ;;
  perform (log_Printf "found %d volumes matching the prefix" [a_int (length ret)]) ;;
  Ret (ret, err).

(** Lines 213-225. The index expression [containers[0]] is reached only
    with [len(containers) == 1]. *)
Definition FindPrefixedContainer (hnd : Handle) (prefixedName : string)
    : prog (Container * error) :=
  '(containers, err) <- GetPrefixedContainers hnd prefixedName ;;
  if negb (is_nil err) then Ret (Container_zero, err) else
  if negb (Nat.eqb (length containers) 1) then
    Ret (Container_zero,
         fmt_Errorf ("failed to found the container with name " ++ prefixedName))
  else Ret (nth 0 containers Container_zero, nil).

(** Lines 227-238. *)
Definition RemoveVolumes (hnd : Handle) (volumes : list Volume) : prog error :=
  volumeNames <- for_range volumes ([] : list string) (fun vol volumeNames =>
                   perform (log_Printf "removing volume %s @%s"
                              [a_string (Name vol); a_string (MountPoint vol)]) ;;
                   Ret (volumeNames ++ [Name vol])%list) ;;
  '(_, _, err) <- perform (VolumeRemove_Call (ctx hnd) (conn hnd)
                             {| Volumes := volumeNames; Force := true |}) ;;
  Ret err.

(** Lines 240-243. *)
Definition RemoveContainer (hnd : Handle) (cont : Container)
    (force removeVolumes : bool) : prog (string * error) :=
  perform (log_Printf ("trying to remove: %s (%s) force=%v removeVolumes=%v" ++ nl)
             [a_string (Names cont); a_string (Id cont);
              a_bool force; a_bool removeVolumes]) ;;
  perform (RemoveContainer_Call (ctx hnd) (conn hnd) (Id cont) force removeVolumes).

(** Lines 245-265. *)
Definition CreateNamedVolume (hnd : Handle) (name : string) : prog (string * error) :=
  perform (VolumeCreate_Call (ctx hnd) (conn hnd) {| VolumeName := name |}).

Definition CreateContainer (hnd : Handle) (conf : Create) : prog (string * error) :=
  perform (CreateContainer_Call (ctx hnd) (conn hnd) conf).

Definition StopContainer (hnd : Handle) (name : string) (timeout : Z)
    : prog (string * error) :=
  perform (StopContainer_Call (ctx hnd) (conn hnd) name timeout).

Definition StartContainer (hnd : Handle) (contID : string) : prog (string * error) :=
  perform (StartContainer_Call (ctx hnd) (conn hnd) contID).

Definition WaitContainer (hnd : Handle) (name : string) (interval : Z)
    : prog (Z * error) :=
  perform (WaitContainer_Call (ctx hnd) (conn hnd) name interval).

(** Lines 267-283. *)
Definition tries : list nat := [0; 1; 2; 6].

Definition PullImage (hnd : Handle) (ref : string) (out : Writer) : prog error :=
  for_range_return 0 tries
    (fun idx i =>
       perform (time_Sleep i) ;;
       perform (log_Printf ("attempt #%d to download %s" ++ nl)
                  [a_int idx; a_string ref]) ;;
       '(_, err) <- perform (PullImage_Call (ctx hnd) (conn hnd) ref) ;;
       if negb (is_nil err) then
         perform (log_Printf ("failed to download %s: %v" ++ nl)
                    [a_string ref; a_error err]) ;;
         Ret None
       else Ret (Some nil))
    (Ret (fmt_Errorf ("failed to download " ++ ref ++ " "
                        ++ fmt_d (length tries) ++ " times, giving up."))).

End Operations.

(** ** Semantics *)

Section Semantics.
Context {imp : Imported}.

(** What one thread does in one step. *)
Inductive action : Type :=
| A_call {X : Type} (c : call X) (x : X)
| A_make (ch : nat)
| A_send (ch : nat) (v : error)
| A_recv (ch : nat) (v : error)
| A_close (ch : nat)
| A_go (g : prog unit).

(** [lstep p a q]: the program [p] can do [a] and go on as [q]. The answer of
    a call, the name of a new channel and the value received are not
    decided by the thread. *)
Definition lstep {A : Type} (p : prog A) (a : action) (q : prog A) : Prop :=
  match p with
  | Ret _ => False
  | Do c k => exists x, a = A_call c x /\ q = k x
  | MakeChan k => exists ch, a = A_make ch /\ q = k ch
  | Send ch v k => a = A_send ch v /\ q = k
  | Recv ch k => exists v, a = A_recv ch v /\ q = k v
  | CloseChan ch k => a = A_close ch /\ q = k
  | Go g k => a = A_go g /\ q = k
  end.

(** The runs of one thread. *)
Fixpoint lrun {A : Type} (p : prog A) (hist : list action) (q : prog A) : Prop :=
  match hist with
  | [] => q = p
  | a :: hist' => exists p', lstep p a p' /\ lrun p' hist' q
  end.

(** *** Sequential execution against an environment

    The environment is a state and a function answering each call. A
    program that never touches a channel or starts a goroutine runs to its
    result; the interpreter gives up on the other statements. *)
Definition environment (S : Type) : Type := forall X : Type, call X -> S -> X * S.

Fixpoint exec {S A : Type} (env : environment S) (p : prog A) (s : S)
    : option (A * list action * S) :=
  match p with
  | Ret a => Some (a, [], s)
  | Do c k =>
      let (x, s1) := env _ c s in
      match exec env (k x) s1 with
      | Some (a, hist, s2) => Some (a, A_call c x :: hist, s2)
      | None => None
      end
  | _ => None
  end.

(** *** Goroutines and channels

    A configuration is a pool of threads, the thread at position 0 being the
    caller, and for each channel made so far whether it has been closed. A
    panic of any goroutine ends the process. *)
Section Pool.
Variable R : Type.

Inductive thread : Type :=
| Main (p : prog R)
| Goroutine (p : prog unit).

Definition tstep (t : thread) (a : action) (t' : thread) : Prop :=
  match t with
  | Main p => exists p', lstep p a p' /\ t' = Main p'
  | Goroutine p => exists p', lstep p a p' /\ t' = Goroutine p'
  end.

Record config : Type :=
  { threads : list thread; closed : list bool; crashed : bool }.

Definition start (p : prog R) : config :=
  {| threads := [Main p]; closed := []; crashed := false |}.

Fixpoint set_nth {T : Type} (i : nat) (x : T) (l : list T) : list T :=
  match l, i with
  | [], _ => []
  | _ :: l', 0 => x :: l'
  | y :: l', S i' => y :: set_nth i' x l'
  end.

(** A step of one thread alone: a call answered by the environment, making a
    channel, starting a goroutine, closing an open channel, receiving the
    zero value from a closed channel. *)
Definition solo (cl : list bool) (a : action) (spawn : list thread)
    (cl' : list bool) : Prop :=
  match a with
  | A_call _ _ => spawn = [] /\ cl' = cl
  | A_make ch => ch = length cl /\ spawn = [] /\ cl' = (cl ++ [false])%list
  | A_go g => spawn = [Goroutine g] /\ cl' = cl
  | A_close ch =>
      nth_error cl ch = Some false /\ spawn = [] /\ cl' = set_nth ch true cl
  | A_recv ch v =>
      nth_error cl ch = Some true /\ v = nil /\ spawn = [] /\ cl' = cl
  | A_send _ _ => False
  end.

(** Sending on, or closing, a closed channel panics. *)
Definition panics (cl : list bool) (a : action) : Prop :=
  match a with
  | A_send ch _ | A_close ch => nth_error cl ch = Some true
  | _ => False
  end.

Inductive event : Type :=
| Ev (i : nat) (a : action)
| Ev_comm (sender receiver ch : nat) (v : error)
| Ev_panic (i : nat) (a : action).

Inductive step : config -> event -> config -> Prop :=
| step_solo ts cl i t a t' spawn cl' :
    nth_error ts i = Some t ->
    tstep t a t' ->
    solo cl a spawn cl' ->
    step {| threads := ts; closed := cl; crashed := false |}
         (Ev i a)
         {| threads := (set_nth i t' ts ++ spawn)%list; closed := cl';
            crashed := false |}
| step_comm ts cl s r ts1 ts1' tr1 tr1' ch v :
    s <> r ->
    nth_error ts s = Some ts1 ->
    nth_error ts r = Some tr1 ->
    tstep ts1 (A_send ch v) ts1' ->
    tstep tr1 (A_recv ch v) tr1' ->
    nth_error cl ch = Some false ->
    step {| threads := ts; closed := cl; crashed := false |}
         (Ev_comm s r ch v)
         {| threads := set_nth r tr1' (set_nth s ts1' ts); closed := cl;
            crashed := false |}
| step_panic ts cl i t a t' :
    nth_error ts i = Some t ->
    tstep t a t' ->
    panics cl a ->
    step {| threads := ts; closed := cl; crashed := false |}
         (Ev_panic i a)
         {| threads := ts; closed := cl; crashed := true |}.

Inductive steps : config -> list event -> config -> Prop :=
| steps_nil cfg : steps cfg [] cfg
| steps_cons cfg e cfg' tr cfg'' :
    step cfg e cfg' -> steps cfg' tr cfg'' -> steps cfg (e :: tr) cfg''.

(** The actions of thread [i] in an event, and in a trace. *)
Definition acts_of (i : nat) (e : event) : list action :=
  match e with
  | Ev j a => if Nat.eqb i j then [a] else []
  | Ev_comm s r ch v =>
      ((if Nat.eqb i s then [A_send ch v] else [])
       ++ (if Nat.eqb i r then [A_recv ch v] else []))%list
  | Ev_panic _ _ => []
  end.

Definition proj (i : nat) (tr : list event) : list action :=
  flat_map (acts_of i) tr.

(** The goroutines started along a trace, in order. *)
Definition spawn_of (e : event) : list thread :=
  match e with
  | Ev _ (A_go g) => [Goroutine g]
  | _ => []
  end.

Definition spawned (tr : list event) : list thread := flat_map spawn_of tr.

(** The result of the caller, once it has returned. *)
Definition returned (cfg : config) : option R :=
  match threads cfg with
  | Main (Ret r) :: _ => Some r
  | _ => None
  end.

End Pool.
End Semantics.

Arguments Main {imp R} p.
Arguments Goroutine {imp R} p.
Arguments Ev {imp} i a.
Arguments Ev_comm {imp} sender receiver ch v.
Arguments Ev_panic {imp} i a.

(** ** What a trace shows *)

Section Observations.
Context {imp : Imported} {rnd : Rendering}.

(** The values [SprintError] is documented to show for a structured error. *)
Definition documented_fields (err : error) : list string :=
  match err with
  | ImageNotFound Id | ContainerNotFound Id => [Id]
  | PodNotFound Name | NoContainersInPod Name => [Name]
  | PodContainerError Podname Errors => [Podname; fmt_v_Errors Errors]
  | ErrorOccurred Reason | RuntimeError Reason => [Reason]
  | InvalidParameter Parameter_ => [Parameter_]
  | MethodNotFound Method | MethodNotImplemented Method => [Method]
  | InterfaceNotFound Interface => [Interface]
  | varlink_Error Params => [fmt_v_Parameters Params]
  | _ => []
  end.

(** The delays slept and the errors of the pull attempts, in order. *)
Definition schedule_of (a : action) : list (nat + error) :=
  match a with
  | A_call c x =>
      match c in call X return X -> list (nat + error) with
      | time_Sleep seconds => fun _ => [inl seconds]
      | PullImage_Call _ _ _ => fun x => [inr (snd x)]
      | _ => fun _ => []
      end x
  | _ => []
  end.

Definition schedule (hist : list action) : list (nat + error) :=
  flat_map schedule_of hist.

(** A delay before each attempt. *)
Definition interleave (delays : list nat) (errs : list error) : list (nat + error) :=
  flat_map (fun de => [inl (fst de); inr (snd de)]) (combine delays errs).

(** The connections attempted: the address and what the attempt gave. *)
Definition dial_of (a : action) : list (string * Connection * error) :=
  match a with
  | A_call c x =>
      match c in call X return X -> list (string * Connection * error) with
      | varlink_NewConnection _ address => fun x => [(address, fst x, snd x)]
      | _ => fun _ => []
      end x
  | _ => []
  end.

Definition dials (hist : list action) : list (string * Connection * error) :=
  flat_map dial_of hist.

(** The construction of a handle as the specification words it, with an
    optional socket address that replaces the default one. *)
Definition NewHandle_spec (c : context) (socketAddress : option string)
    : prog (Handle * error) :=
  let address := match socketAddress with
                 | Some a => a
                 | None => DefaultSocket
                 end in
  '(cn, err) <- perform (varlink_NewConnection c address) ;;
  Ret ({| ctx := c; conn := cn |}, err).

Definition dialled (hist : list action) : list string :=
  map (fun d => fst (fst d)) (dials hist).

(** The history of a sequential execution. *)
Definition history {S A : Type} (r : option (A * list action * S)) : list action :=
  match r with
  | Some (_, hist, _) => hist
  | None => []
  end.

End Observations.

(** ** Runs of a pool, thread by thread *)

Section Threads.
Context {imp : Imported}.
Variable R : Type.

(** The runs of one thread of a pool. *)
Fixpoint trun (t : thread R) (hist : list action) (t' : thread R) : Prop :=
  match hist with
  | [] => t' = t
  | a :: hist' => exists t1, tstep R t a t1 /\ trun t1 hist' t'
  end.

(** The goroutines a thread starts, in order. *)
Definition go_of (a : action) : list (thread R) :=
  match a with
  | A_go g => [Goroutine g]
  | _ => []
  end.

Definition gos (hist : list action) : list (thread R) := flat_map go_of hist.

(** A property of the caller and a property of the goroutines. *)
Definition pool_ok (Jc Jg : thread R -> Prop) (ts : list (thread R)) : Prop :=
  match ts with
  | [] => True
  | t :: gs => Jc t /\ Forall Jg gs
  end.

(** A property of actions that may depend on whether the caller acts. *)
Definition event_ok (Q : bool -> action -> Prop) (e : event) : Prop :=
  match e with
  | Ev i a => Q (Nat.eqb i 0) a
  | _ => True
  end.

End Threads.

Section Calls.
Context {imp : Imported}.

(** Every call a program can make, in itself or in a goroutine it starts,
    satisfies [P]. *)
Fixpoint calls_satisfy (P : forall X : Type, call X -> Prop) {A : Type}
    (p : prog A) : Prop :=
  match p with
  | Ret _ => True
  | Do c k => P _ c /\ forall x, calls_satisfy P (k x)
  | MakeChan k => forall ch, calls_satisfy P (k ch)
  | Send _ _ k => calls_satisfy P k
  | Recv _ k => forall v, calls_satisfy P (k v)
  | CloseChan _ k => calls_satisfy P k
  | Go g k => calls_satisfy P g /\ calls_satisfy P k
  end.

Definition thread_calls (P : forall X : Type, call X -> Prop) {R : Type}
    (t : thread R) : Prop :=
  match t with
  | Main p => calls_satisfy P p
  | Goroutine p => calls_satisfy P p
  end.

Definition action_calls (P : forall X : Type, call X -> Prop) (a : action) : Prop :=
  match a with
  | A_call c _ => P _ c
  | _ => True
  end.

(** A program that starts no goroutine. *)
Fixpoint go_free {A : Type} (p : prog A) : Prop :=
  match p with
  | Ret _ => True
  | Do _ k => forall x, go_free (k x)
  | MakeChan k => forall ch, go_free (k ch)
  | Send _ _ k => go_free k
  | Recv _ k => forall v, go_free (k v)
  | CloseChan _ k => go_free k
  | Go _ _ => False
  end.

(** A program whose goroutines start no goroutine. *)
Fixpoint go_flat {A : Type} (p : prog A) : Prop :=
  match p with
  | Ret _ => True
  | Do _ k => forall x, go_flat (k x)
  | MakeChan k => forall ch, go_flat (k ch)
  | Send _ _ k => go_flat k
  | Recv _ k => forall v, go_flat (k v)
  | CloseChan _ k => go_flat k
  | Go g k => go_free g /\ go_flat k
  end.

Definition is_go (a : action) : bool :=
  match a with A_go _ => true | _ => false end.

(** The calls that change the mode of a terminal. *)
Definition changes_mode {X : Type} (c : call X) : bool :=
  match c with
  | terminal_MakeRaw _ | terminal_Restore _ _ => true
  | _ => false
  end.

(** The calls that close something. *)
Definition closes {X : Type} (c : call X) : bool :=
  match c with
  | File_Close _ | Connection_Close _ => true
  | _ => false
  end.

(** What a method of a handle may call: never [Close] on a connection, never
    a new connection, and every varlink call on the context and the
    connection of the handle. *)
Definition on_handle (hnd : Handle) (X : Type) (c : call X) : Prop :=
  match c with
  | Connection_Close _ | varlink_NewConnection _ _ => False
  | Attach_Call c0 cn _ _ _ | GetAttachSockets_Call c0 cn _
  | ExecContainer_Call c0 cn _ | ListContainers_Call c0 cn
  | GetVolumes_Call c0 cn _ _ | VolumeRemove_Call c0 cn _
  | RemoveContainer_Call c0 cn _ _ _ | VolumeCreate_Call c0 cn _
  | CreateContainer_Call c0 cn _ | StopContainer_Call c0 cn _ _
  | StartContainer_Call c0 cn _ | WaitContainer_Call c0 cn _ _
  | PullImage_Call c0 cn _ => c0 = ctx hnd /\ cn = conn hnd
  | _ => True
  end.

(** The methods of a handle, with their arguments. *)
Inductive operation : Type :=
| op_Terminal (container : string) (args : list string) (file : File)
| op_Exec (container : string) (args : list string) (out : Writer)
| op_GetPrefixedContainers (prefix : string)
| op_GetPrefixedVolumes (prefix : string)
| op_FindPrefixedContainer (prefixedName : string)
| op_RemoveVolumes (volumes : list Volume)
| op_RemoveContainer (cont : Container) (force removeVolumes : bool)
| op_CreateNamedVolume (name : string)
| op_CreateContainer (conf : Create)
| op_StopContainer (name : string) (timeout : Z)
| op_StartContainer (contID : string)
| op_WaitContainer (name : string) (interval : Z)
| op_PullImage (ref : string) (out : Writer).

(** Calling a method and dropping what it returns. *)
Definition invoke (hnd : Handle) (op : operation) : prog unit :=
  match op with
  | op_Terminal container args file => Terminal hnd container args file ;; Ret tt
  | op_Exec container args out => Exec hnd container args out ;; Ret tt
  | op_GetPrefixedContainers prefix => GetPrefixedContainers hnd prefix ;; Ret tt
  | op_GetPrefixedVolumes prefix => GetPrefixedVolumes hnd prefix ;; Ret tt
  | op_FindPrefixedContainer prefixedName =>
      FindPrefixedContainer hnd prefixedName ;; Ret tt
  | op_RemoveVolumes volumes => RemoveVolumes hnd volumes ;; Ret tt
  | op_RemoveContainer cont force removeVolumes =>
      RemoveContainer hnd cont force removeVolumes ;; Ret tt
  | op_CreateNamedVolume name => CreateNamedVolume hnd name ;; Ret tt
  | op_CreateContainer conf => CreateContainer hnd conf ;; Ret tt
  | op_StopContainer name timeout => StopContainer hnd name timeout ;; Ret tt
  | op_StartContainer contID => StartContainer hnd contID ;; Ret tt
  | op_WaitContainer name interval => WaitContainer hnd name interval ;; Ret tt
  | op_PullImage ref out => PullImage hnd ref out ;; Ret tt
  end.

(** A caller using one handle for a sequence of methods. *)
Fixpoint invoke_all (hnd : Handle) (ops : list operation) : prog unit :=
  match ops with
  | [] => Ret tt
  | op :: rest => invoke hnd op ;; invoke_all hnd rest
  end.

End Calls.

(** ** The runs of Terminal *)

Section TerminalRuns.
Context {imp : Imported}.

(** The result of a program that has returned. *)
Definition result {A : Type} (p : prog A) : option A :=
  match p with
  | Ret a => Some a
  | _ => None
  end.



(** The actions that change the mode of a terminal, and those that close a
    file or a connection. *)
Definition action_changes_mode (a : action) : bool :=
  match a with
  | A_call c _ => changes_mode c
  | _ => false
  end.

Definition action_closes (a : action) : bool :=
  match a with
  | A_call c _ => closes c
  | _ => false
  end.

(** [terminal.MakeRaw] answered without error: raw mode is established. *)
Definition raw_established (a : action) : bool :=
  match a with
  | A_call c x =>
      match c in call X return X -> bool with
      | terminal_MakeRaw _ => fun x => is_nil (snd x)
      | _ => fun _ => false
      end x
  | _ => false
  end.


Variables (hnd : Handle) (container : string) (args : list string) (file : File).

(** The calls of [Terminal] with their answers. *)
Definition attach_answer (err : error) : action :=
  A_call (Attach_Call (ctx hnd) (conn hnd) container "" false) err.
Definition sockets_answer (socks : Sockets) (err : error) : action :=
  A_call (GetAttachSockets_Call (ctx hnd) (conn hnd) container) (socks, err).
Definition open_answer (socks : Sockets) (attached : File) (err : error) : action :=
  A_call (os_OpenFile (Io_socket socks) O_RDWR perm_0644) (attached, err).
Definition raw_answer (state : State) (err : error) : action :=
  A_call (terminal_MakeRaw (Fd file)) (state, err).
Definition restore_answer (state : State) (x : error) : action :=
  A_call (terminal_Restore (Fd file) state) x.
Definition close_answer (attached : File) (x : error) : action :=
  A_call (File_Close attached) x.

(** The four calls that succeed before the streaming phase. *)
Definition prepared (socks : Sockets) (attached : File) (state : State) : list action :=
  [attach_answer nil; sockets_answer socks nil; open_answer socks attached nil;
   raw_answer state nil].

(** The four goroutines, in the order they are started. *)
Definition activities (attached : File) (errChan : nat) : list (prog unit) :=
  [interrupt_listener errChan; copy_to_terminal file attached errChan;
   copy_to_socket file attached errChan;
   exec_call hnd container args file errChan].

(** Making the channel and starting the goroutines. *)
Definition started (attached : File) (errChan : nat) : list action :=
  A_make errChan :: map A_go (activities attached errChan).

(** What each goroutine does when it runs to its end. *)
Definition interrupt_history (errChan : nat) : list action :=
  [A_call signal_Notify tt; A_call signal_receive tt; A_close errChan].

Definition copy_error (ended : copy_end) : error :=
  match ended with
  | end_of_stream => nil
  | copy_failed e => e
  end.

Definition copy_history (dst src : File) (errChan written : nat) (ended : copy_end)
    : list action :=
  [A_call (copy_stream dst src) (written, ended); A_send errChan (copy_error ended)].

Definition exec_history (errChan : nat) (tty : bool) (err : error) : list action :=
  [A_call (terminal_IsTerminal (Fd file)) tty;
   A_call (ExecContainer_Call (ctx hnd) (conn hnd)
             {| exec_Name := container; exec_Tty := tty;
                exec_Privileged := true; exec_Cmd := args |}) err;
   A_send errChan err].

(** What the goroutine at position [i] of the pool has done, for a pool that
    started with the caller alone. *)
Inductive activity_at (attached : File) (errChan : nat) : nat -> list action -> Prop :=
| interrupt_at n :
    activity_at attached errChan 1 (firstn n (interrupt_history errChan))
| to_terminal_at n written ended :
    activity_at attached errChan 2
      (firstn n (copy_history file attached errChan written ended))
| to_socket_at n written ended :
    activity_at attached errChan 3
      (firstn n (copy_history attached file errChan written ended))
| exec_at n tty err :
    activity_at attached errChan 4 (firstn n (exec_history errChan tty err)).

(** What is left to do once a value has been received: the two deferred
    calls, then the return of that value. *)
Definition finishing (attached : File) (state : State) (v : error) : prog error :=
  Do (terminal_Restore (Fd file) state) (fun _ =>
  Do (File_Close attached) (fun _ => Ret v)).

(** The five ways out of [Terminal]: what the caller has done, and the
    error returned. *)
Inductive Terminal_exit : list action -> error -> Prop :=
| exit_attach err :
    is_nil err = false ->
    Terminal_exit [attach_answer err] err
| exit_sockets socks err :
    is_nil err = false ->
    Terminal_exit [attach_answer nil; sockets_answer socks err] err
| exit_open socks attached err :
    is_nil err = false ->
    Terminal_exit [attach_answer nil; sockets_answer socks nil;
                   open_answer socks attached err] err
| exit_raw socks attached state err x :
    is_nil err = false ->
    Terminal_exit [attach_answer nil; sockets_answer socks nil;
                   open_answer socks attached nil; raw_answer state err;
                   close_answer attached x] err
| exit_stream socks attached state errChan v x y :
    Terminal_exit (prepared socks attached state ++ started attached errChan
                   ++ [A_recv errChan v; restore_answer state x;
                       close_answer attached y]) v.

(** Every state of the caller inside [Terminal]: what it has done, and the
    program left. *)
Inductive Terminal_at : list action -> prog error -> Prop :=
| at_exit hist r :
    Terminal_exit hist r -> Terminal_at hist (Ret r)
| at_start p :
    result p = None -> Terminal_at [] p
| at_attached p :
    result p = None -> Terminal_at [attach_answer nil] p
| at_sockets socks p :
    result p = None ->
    Terminal_at [attach_answer nil; sockets_answer socks nil] p
| at_opened socks attached p :
    result p = None ->
    Terminal_at [attach_answer nil; sockets_answer socks nil;
                 open_answer socks attached nil] p
| at_raw_failed socks attached state err :
    is_nil err = false ->
    Terminal_at [attach_answer nil; sockets_answer socks nil;
                 open_answer socks attached nil; raw_answer state err]
                (Do (File_Close attached) (fun _ => Ret err))
| at_starting socks attached state errChan n p :
    n <= 5 ->
    result p = None ->
    Terminal_at (prepared socks attached state ++ firstn n (started attached errChan)) p
| at_received socks attached state errChan v :
    Terminal_at (prepared socks attached state ++ started attached errChan
                 ++ [A_recv errChan v])
                (finishing attached state v)
| at_restored socks attached state errChan v x :
    Terminal_at (prepared socks attached state ++ started attached errChan
                 ++ [A_recv errChan v; restore_answer state x])
                (Do (File_Close attached) (fun _ => Ret v)).

End TerminalRuns.

(** ** More of what a history shows *)

Section MoreObservations.
Context {imp : Imported}.

(** A line written to the log. *)
Definition is_log (a : action) : bool :=
  match a with
  | A_call c _ =>
      match c with
      | log_Printf _ _ => true
      | _ => false
      end
  | _ => false
  end.

(** The calls that are not log lines. *)
Definition round_trips (hist : list action) : list action :=
  filter (fun a => negb (is_log a)) hist.

(** The seconds slept. *)
Definition sleep_of (a : action) : list nat :=
  match a with
  | A_call c _ =>
      match c with
      | time_Sleep seconds => [seconds]
      | _ => []
      end
  | _ => []
  end.

Definition sleeps (hist : list action) : list nat := flat_map sleep_of hist.

(** The pulls asked for, with the error each one gave. *)
Definition pull_of (a : action) : list (context * Connection * string * error) :=
  match a with
  | A_call c x =>
      match c in call X return X -> list (context * Connection * string * error) with
      | PullImage_Call c0 cn ref => fun x => [(c0, cn, ref, snd x)]
      | _ => fun _ => []
      end x
  | _ => []
  end.

Definition pulls (hist : list action) : list (context * Connection * string * error) :=
  flat_map pull_of hist.

(** The errors written to the log. *)
Definition logged_error_of (a : action) : list error :=
  match a with
  | A_call c _ =>
      match c with
      | log_Printf _ args =>
          flat_map (fun arg => match arg with a_error e => [e] | _ => [] end) args
      | _ => []
      end
  | _ => []
  end.

Definition logged_errors (hist : list action) : list error :=
  flat_map logged_error_of hist.

(** The options of an exec call. *)
Definition exec_opts_of (a : action) : option ExecOpts :=
  match a with
  | A_call c _ =>
      match c with
      | ExecContainer_Call _ _ opts => Some opts
      | _ => None
      end
  | _ => None
  end.

(** A value handed from a sender to a receiver. *)
Definition is_comm (e : event) : bool :=
  match e with
  | Ev_comm _ _ _ _ => true
  | _ => false
  end.

Definition is_recv (a : action) : bool :=
  match a with
  | A_recv _ _ => true
  | _ => false
  end.

End MoreObservations.

Section MoreRuns.
Context {imp : Imported}.

(** A program of calls only, each of them satisfying [P]: no goroutine and
    no channel. *)
Fixpoint sequential (P : forall X : Type, call X -> Prop) {A : Type}
    (p : prog A) : Prop :=
  match p with
  | Ret _ => True
  | Do c k => P _ c /\ forall x, sequential P (k x)
  | _ => False
  end.

(** A log line, a sleep, or a varlink call of the methods other than
    [Terminal], on the context and the connection of the handle. *)
Definition plain_call (hnd : Handle) (X : Type) (c : call X) : Prop :=
  match c with
  | log_Printf _ _ | time_Sleep _ => True
  | ExecContainer_Call c0 cn _ | ListContainers_Call c0 cn
  | GetVolumes_Call c0 cn _ _ | VolumeRemove_Call c0 cn _
  | RemoveContainer_Call c0 cn _ _ _ | VolumeCreate_Call c0 cn _
  | CreateContainer_Call c0 cn _ | StopContainer_Call c0 cn _ _
  | StartContainer_Call c0 cn _ | WaitContainer_Call c0 cn _ _
  | PullImage_Call c0 cn _ => c0 = ctx hnd /\ cn = conn hnd
  | _ => False
  end.

Definition is_Terminal (op : operation) : bool :=
  match op with
  | op_Terminal _ _ _ => true
  | _ => false
  end.

Variables (hnd : Handle) (container : string) (args : list string) (file : File).

(** A run of [Terminal] that ends with the interrupt: everything succeeds,
    the goroutines are started, the signal arrives, the listener closes the
    channel, the caller reads the zero value, restores the mode, closes the
    socket and returns. The channel is the first one made. *)
Definition interrupted (socks : Sockets) (attached : File) (state : State)
    : list event :=
  (map (Ev 0) (prepared hnd container file socks attached state)
   ++ map (Ev 0) (started hnd container args file attached 0)
   ++ [ Ev 1 (A_call signal_Notify tt);
        Ev 1 (A_call signal_receive tt);
        Ev 1 (A_close 0);
        Ev 0 (A_recv 0 nil);
        Ev 0 (restore_answer file state nil);
        Ev 0 (close_answer attached nil) ])%list.

(** What may follow: the copy from the socket to the terminal ends, and the
    goroutine sends its error. *)
Definition late_copy (attached : File) (written : nat) (ended : copy_end)
    : list event :=
  [ Ev 2 (A_call (copy_stream file attached) (written, ended));
    Ev_panic 2 (A_send 0 (copy_error ended)) ].

End MoreRuns.

Section Deliveries.
Context {imp : Imported}.





Variables (hnd : Handle) (container : string) (args : list string) (file : File).





End Deliveries.

(** ** A small world to run the programs in *)

Definition demo : Imported :=
  {| context := unit; Connection := nat; File := nat; Fd := fun f => f;
     State := nat; Writer := unit; Create := unit;
     PodContainerErrorData := string; Parameters := string |}.

(** Every call succeeds with an empty answer. *)
Definition quiet {X : Type} (c : call (imp := demo) X) : X :=
  match c in call X return X with
  | log_Printf _ _ | time_Sleep _ | signal_Notify | signal_receive => tt
  | varlink_NewConnection _ _ => (0, nil)
  | os_OpenFile _ _ _ => (0, nil)
  | terminal_MakeRaw _ => (0, nil)
  | terminal_IsTerminal _ => true
  | copy_stream _ _ => (0, end_of_stream)
  | GetAttachSockets_Call _ _ _ => ({| Io_socket := "" |}, nil)
  | ListContainers_Call _ _ => ([], nil)
  | GetVolumes_Call _ _ _ _ => ([], nil)
  | VolumeRemove_Call _ _ _ => ([], [], nil)
  | WaitContainer_Call _ _ _ _ => (0%Z, nil)
  | RemoveContainer_Call _ _ _ _ _ | VolumeCreate_Call _ _ _
  | CreateContainer_Call _ _ _ | StopContainer_Call _ _ _ _
  | StartContainer_Call _ _ _ | PullImage_Call _ _ _ => ("", nil)
  | Connection_Close _ | File_Close _ | terminal_Restore _ _
  | Attach_Call _ _ _ _ _ | ExecContainer_Call _ _ _ => nil
  end.

(** An engine that reports the given containers and volumes, or fails to
    list with the given error; the state counts the pull attempts, of which
    the first [failing] fail. *)
Definition engine (containers : list Container)
    (volumes : list Volume) (list_err : error (imp := demo))
    (failing : nat) : environment nat :=
  fun X c n =>
    match c in call X return X * nat with
    | ListContainers_Call _ _ => ((containers, list_err), n)
    | GetVolumes_Call _ _ _ _ => ((volumes, list_err), n)
    | PullImage_Call _ _ ref =>
        ((ref, if Nat.ltb n failing then ErrorOccurred "registry unreachable" else nil),
         S n)
    | c' => (quiet c', n)
    end.

Definition demo_handle : Handle (imp := demo) := @Build_Handle demo tt 7.

Definition demo_rendering : Rendering (imp := demo) :=
  @Build_Rendering demo
    (fun _ => "io.podman.Error")
    (fun errs : list string => "[" ++ String.concat " " errs ++ "]")
    (fun params : string => params).

Definition node01 : Container :=
  {| Id := "3f1c"; Names := "pack8s-node01"; Status := "running" |}.
Definition registry : Container :=
  {| Id := "77aa"; Names := "pack8s-registry"; Status := "running" |}.
Definition stranger : Container :=
  {| Id := "0b2e"; Names := "some-pack"; Status := "exited" |}.
Definition demo_containers : list Container := [node01; stranger; registry].

Definition demo_volumes : list Volume :=
  [ {| Name := "pack8s-1-test"; MountPoint := "/var/lib/volumes/1" |};
    {| Name := "some-pack-test"; MountPoint := "/var/lib/volumes/2" |};
    {| Name := "pack8s-2-test"; MountPoint := "/var/lib/volumes/3" |} ].

(** A session on the container node01 in which the exec call is refused
    while nothing has come from the signal or from the two copies. *)
Definition demo_file : @File demo := 5.
Definition demo_socket : @File demo := 9.
Definition demo_sockets : Sockets := {| Io_socket := "/run/libpod/socket/node01/attach" |}.
Definition refused : error (imp := demo) := ErrorOccurred "no such exec command".

Definition demo_session : prog (imp := demo) error :=
  Terminal demo_handle "node01" ["sh"] demo_file.

Definition demo_trace : list (event (imp := demo)) :=
  [ Ev 0 (attach_answer demo_handle "node01" nil);
    Ev 0 (sockets_answer demo_handle "node01" demo_sockets nil);
    Ev 0 (open_answer demo_sockets demo_socket nil);
    Ev 0 (raw_answer demo_file 1 nil);
    Ev 0 (A_make 0);
    Ev 0 (A_go (interrupt_listener 0));
    Ev 0 (A_go (copy_to_terminal demo_file demo_socket 0));
    Ev 0 (A_go (copy_to_socket demo_file demo_socket 0));
    Ev 0 (A_go (exec_call demo_handle "node01" ["sh"] demo_file 0));
    Ev 1 (A_call signal_Notify tt);
    Ev 4 (A_call (terminal_IsTerminal 5) true);
    Ev 4 (A_call (ExecContainer_Call (ctx demo_handle) (conn demo_handle)
                    {| exec_Name := "node01"; exec_Tty := true;
                       exec_Privileged := true; exec_Cmd := ["sh"] |}) refused);
    Ev_comm 4 0 0 refused;
    Ev 0 (restore_answer demo_file 1 nil);
    Ev 0 (close_answer demo_socket nil) ].

(** A session that ends at the attach call. *)
Definition demo_trace_refused : list (event (imp := demo)) :=
  [ Ev 0 (attach_answer demo_handle "node01" refused) ].



(** Two methods called one after the other on one handle. *)
Definition demo_calls : list (operation (imp := demo)) :=
  [op_CreateNamedVolume "pack8s-1-test"; op_StartContainer "3f1c"].

Definition demo_calls_trace : list (event (imp := demo)) :=
  [ Ev 0 (A_call (VolumeCreate_Call (ctx demo_handle) (conn demo_handle)
                    {| VolumeName := "pack8s-1-test" |}) ("pack8s-1-test", nil));
    Ev 0 (A_call (StartContainer_Call (ctx demo_handle) (conn demo_handle) "3f1c")
                 ("3f1c", nil)) ].

(** * Properties *)

(** ** Strings *)

Lemma append_assoc (a b c : string) : (a ++ b) ++ c = a ++ b ++ c.
Proof. induction a as [|x a IH]; simpl; [reflexivity | now rewrite IH]. Qed.

Lemma append_nil_r (a : string) : a ++ "" = a.
Proof. induction a as [|x a IH]; simpl; [reflexivity | now rewrite IH]. Qed.

Lemma append_inv_l (a b c : string) : a ++ b = a ++ c -> b = c.
Proof.
  induction a as [|x a IH]; simpl; intros H; [exact H | ].
  injection H as H. now apply IH.
Qed.

Lemma length_append (a b : string) :
  String.length (a ++ b) = String.length a + String.length b.
Proof. induction a as [|x a IH]; simpl; [reflexivity | now rewrite IH]. Qed.

Lemma Contains_refl (s : string) : Contains s s.
Proof. exists "", "". simpl. now rewrite append_nil_r. Qed.

Lemma Contains_here (s post : string) : Contains (s ++ post) s.
Proof. exists "", post. reflexivity. Qed.

Lemma Contains_skip (a b s : string) : Contains b s -> Contains (a ++ b) s.
Proof.
  intros (pre & post & ->). exists (a ++ pre), post. now rewrite append_assoc.
Qed.

Lemma Contains_left (a b s : string) : Contains a s -> Contains (a ++ b) s.
Proof.
  intros (pre & post & ->). exists pre, (post ++ b).
  now rewrite !append_assoc.
Qed.

Ltac contains :=
  solve [ apply Contains_refl
        | apply Contains_here
        | apply Contains_skip; contains
        | apply Contains_left; contains ].

Lemma substring_prefix (p t : string) : substring 0 (String.length p) (p ++ t) = p.
Proof.
  induction p as [|x p IH]; simpl.
  - now destruct t.
  - now rewrite IH.
Qed.

Lemma substring_split (n : nat) (s : string) :
  n <= String.length s ->
  exists t, s = substring 0 n s ++ t.
Proof.
  revert s. induction n as [|n IH]; intros s Hn.
  - exists s. now destruct s.
  - destruct s as [|x s]; simpl in *; [lia | ].
    destruct (IH s) as [t Ht]; [lia | ].
    exists t. now rewrite <- Ht.
Qed.

(** [strings.HasPrefix] holds exactly when the string is the prefix followed
    by something, byte for byte. *)
Lemma HasPrefix_spec (s prefix : string) :
  HasPrefix s prefix = true <-> exists t, s = prefix ++ t.
Proof.
  unfold HasPrefix. rewrite andb_true_iff, Nat.leb_le, String.eqb_eq. split.
  - intros [Hlen Heq]. destruct (substring_split _ _ Hlen) as [t Ht].
    exists t. now rewrite Heq in Ht.
  - intros [t ->]. split.
    + rewrite length_append. lia.
    + apply substring_prefix.
Qed.

Lemma containsb_spec (s sub : string) : containsb s sub = true <-> Contains s sub.
Proof.
  split.
  - induction s as [|c s IH]; simpl; rewrite orb_true_iff; intros [H | H].
    + apply HasPrefix_spec in H. destruct H as [t Ht]. exists "", t. exact Ht.
    + discriminate.
    + apply HasPrefix_spec in H. destruct H as [t Ht]. exists "", t. exact Ht.
    + destruct (IH H) as (pre & post & ->). now exists (String c pre), post.
  - intros (pre & post & ->). induction pre as [|c pre IH].
    + assert (H : HasPrefix (sub ++ post) sub = true)
        by (apply HasPrefix_spec; now exists post).
      simpl append. destruct (sub ++ post); simpl; now rewrite H.
    + simpl. rewrite IH. apply orb_true_r.
Qed.

Section SprintErrorProperties.
Context {imp : Imported} {rnd : Rendering}.

Lemma ends_with_nl_here : exists front, nl = front ++ nl.
Proof. now exists "". Qed.

Lemma ends_with_nl_skip (a b : string) :
  (exists front, b = front ++ nl) -> exists front, a ++ b = front ++ nl.
Proof. intros [front ->]. exists (a ++ front). now rewrite append_assoc. Qed.

(** [SprintError] panics on the nil pointers it reads a field of, and on
    nothing else. *)
Lemma SprintError_panics (methodname : string) (err : error) :
  SprintError methodname err = None <-> reads_nil_pointer err = true.
Proof.
  unfold SprintError.
  destruct err as [ | | | | | | | | | | | | | | t | | | | ]; try destruct t;
    cbn [option_map reads_nil_pointer]; split; intros H; try discriminate H;
    reflexivity.
Qed.

(** Otherwise it returns the header followed by a text that ends with a line
    feed. *)
Lemma SprintError_returns (methodname : string) (err : error) :
  reads_nil_pointer err = false ->
  exists rest,
    SprintError methodname err
    = Some ("Error calling " ++ methodname ++ ": " ++ rest ++ nl).
Proof.
  intros Hread. unfold SprintError.
  cut (forall body, (exists front, body = front ++ nl) ->
         exists rest, Some (("Error calling " ++ methodname ++ ": ") ++ body)
                      = Some ("Error calling " ++ methodname ++ ": " ++ rest ++ nl)).
  { intros Hbody.
    destruct err as [ | | | | | | | | | | | | | | t | | | | ]; try destruct t;
      try discriminate Hread; cbn [option_map]; apply Hbody;
      repeat (apply ends_with_nl_here || apply ends_with_nl_skip). }
  intros body [front ->]. exists front. now rewrite !append_assoc.
Qed.

(** C6, as the code has it. A non-nil error that holds a nil pointer of one
    of the types of the switch matches the case of its type, and every
    case but the one of [NoContainerRunning] reads a field of the pointer:
    on these values [SprintError] panics and returns nothing. On every other
    error value, for every method name, it returns a non-empty string that
    contains the method name, and for a structured error of a recognized
    kind the string contains each documented field value: the name of a
    missing image, container or pod, the pod name and the rendered error
    list of a multi-container error, the reason, the parameter, method or
    interface of a protocol error. *)
Theorem SprintError_names_method_and_fields (methodname : string) (err : error) :
  (SprintError methodname err = None <-> reads_nil_pointer err = true)
  /\ (reads_nil_pointer err = true <->
      exists t, err = nil_pointer t /\ t <> p_NoContainerRunning)
  /\ (reads_nil_pointer err = false ->
      exists out,
        SprintError methodname err = Some out
        /\ out <> ""
        /\ Contains out methodname
        /\ Forall (Contains out) (documented_fields err)).
Proof.
  split; [apply SprintError_panics | split].
  - split.
    + destruct err as [ | | | | | | | | | | | | | | t | | | | ]; try discriminate.
      intros H. exists t. split; [reflexivity | ]. intros ->. discriminate H.
    + intros (t & -> & Ht). destruct t; try reflexivity. now contradiction Ht.
  - intros Hread. unfold SprintError.
    destruct err as [ | | | | | | | | | | | | | | t | | | | ]; try destruct t;
      try discriminate Hread; cbn [option_map documented_fields];
      (eexists; split; [reflexivity | ]);
      (split; [intros H; simpl in H; discriminate H | ]);
      (split; [contains | ]);
      repeat (apply Forall_cons || apply Forall_nil); contains.
Qed.

(** C7. [io.EOF] is shown as "Connection closed" and [io.ErrUnexpectedEOF]
    as "Connection aborted", two different messages. The other errors of no
    recognized kind are the nil interface, the errors of [errors.New] and
    [fmt.Errorf], and the values of any further dynamic type: each is shown
    as the name of its dynamic type, a dash and its default text in
    quotes. *)
Theorem SprintError_sentinels_and_fallback (methodname : string) :
  SprintError methodname io_EOF
  = Some ("Error calling " ++ methodname ++ ": " ++ "Connection closed" ++ nl)
  /\ SprintError methodname io_ErrUnexpectedEOF
     = Some ("Error calling " ++ methodname ++ ": " ++ "Connection aborted" ++ nl)
  /\ SprintError methodname io_EOF <> SprintError methodname io_ErrUnexpectedEOF
  /\ (exists out, SprintError methodname io_EOF = Some out
                  /\ Contains out "Connection closed")
  /\ (exists out, SprintError methodname io_ErrUnexpectedEOF = Some out
                  /\ Contains out "Connection aborted")
  /\ SprintError methodname nil
     = Some ("Error calling " ++ methodname ++ ": " ++ "<nil>" ++ " - '" ++ "<nil>"
               ++ "'" ++ nl)
  /\ (forall text,
        SprintError methodname (errorString text)
        = Some ("Error calling " ++ methodname ++ ": " ++ "*errors.errorString"
                  ++ " - '" ++ text ++ "'" ++ nl))
  /\ (forall dynamic_type text,
        SprintError methodname (other dynamic_type text)
        = Some ("Error calling " ++ methodname ++ ": " ++ dynamic_type
                  ++ " - '" ++ text ++ "'" ++ nl))
  /\ (forall err,
        recognized err = false ->
        err = nil \/ err = io_EOF \/ err = io_ErrUnexpectedEOF
        \/ (exists text, err = errorString text)
        \/ (exists dynamic_type text, err = other dynamic_type text)).
Proof.
  assert (Heof : SprintError methodname io_EOF
                 = Some ("Error calling " ++ methodname ++ ": " ++ "Connection closed" ++ nl)).
  { unfold SprintError. cbn [option_map]. now rewrite !append_assoc. }
  assert (Hab : SprintError methodname io_ErrUnexpectedEOF
                = Some ("Error calling " ++ methodname ++ ": " ++ "Connection aborted" ++ nl)).
  { unfold SprintError. cbn [option_map]. now rewrite !append_assoc. }
  split; [exact Heof | split; [exact Hab | ]].
  split.
  { rewrite Heof, Hab. intros H. injection H as H.
    apply append_inv_l in H. discriminate H. }
  split; [eexists; split; [exact Heof | contains] | ].
  split; [eexists; split; [exact Hab | contains] | ].
  split; [unfold SprintError; cbn [option_map fmt_T fmt_v]; now rewrite !append_assoc | ].
  split; [intros text; unfold SprintError; cbn [option_map fmt_T fmt_v];
          now rewrite !append_assoc | ].
  split; [intros dynamic_type text; unfold SprintError; cbn [option_map fmt_T fmt_v];
          now rewrite !append_assoc | ].
  intros err. destruct err; simpl recognized; intros H; try discriminate H; eauto 10.
Qed.

End SprintErrorProperties.

(** C6, as stated, fails: a non-nil error that holds a nil pointer of the
    type ContainerNotFound is an error value. The type switch takes the case
    of that type and reads [e.Id]: [SprintError] panics, and no string is
    returned. *)
Lemma SprintError_nil_pointer_panics :
  SprintError (rnd := demo_rendering) "GetContainer"
    (@nil_pointer demo p_ContainerNotFound) = None
  /\ ~ (forall err : @error demo,
          exists out,
            SprintError (rnd := demo_rendering) "GetContainer" err = Some out
            /\ out <> "" /\ Contains out "GetContainer").
Proof.
  split; [reflexivity | ].
  intros H. destruct (H (@nil_pointer demo p_ContainerNotFound)) as (out & E & _).
  discriminate E.
Qed.

(** C6, on a missing image. *)
Lemma SprintError_names_method_and_fields_witness :
  exists out,
    SprintError (rnd := demo_rendering) "PullImage" (@ImageNotFound demo "busybox")
    = Some out
    /\ out <> ""
    /\ Contains out "PullImage"
    /\ Forall (Contains out) ["busybox"].
Proof.
  exact (proj2 (proj2 (SprintError_names_method_and_fields
                         (rnd := demo_rendering) "PullImage"
                         (@ImageNotFound demo "busybox"))) eq_refl).
Defined.

(** ** Sequential execution *)

Section Sequential.
Context {imp : Imported}.

Lemma is_nil_true (err : error) : is_nil err = true -> err = nil.
Proof. destruct err; simpl; congruence. Qed.

Lemma is_nil_false (err : error) : is_nil err = false -> err <> nil.
Proof. destruct err; simpl; congruence. Qed.

Lemma exec_bind {S A B : Type} (env : environment S) (p : prog A) (f : A -> prog B) :
  forall s,
    exec env (bind p f) s =
    match exec env p s with
    | Some (a, h1, s1) =>
        match exec env (f a) s1 with
        | Some (b, h2, s2) => Some (b, (h1 ++ h2)%list, s2)
        | None => None
        end
    | None => None
    end.
Proof.
  revert B f.
  induction p as [A a | A X c k IH | | | | | ]; intros B f s; simpl; try reflexivity.
  - destruct (exec env (f a) s) as [[[b h2] s2] | ]; reflexivity.
  - destruct (env X c s) as [x s1]. rewrite IH.
    destruct (exec env (k x) s1) as [[[a h1] s2] | ]; [ | reflexivity].
    destruct (exec env (f a) s2) as [[[b h2] s3] | ]; reflexivity.
Qed.

Lemma exec_perform {S X : Type} (env : environment S) (c : call X) (s : S) :
  exec env (perform c) s = Some (fst (env X c s), [A_call c (fst (env X c s))], snd (env X c s)).
Proof. unfold perform. simpl. now destruct (env X c s). Qed.

(** A loop that appends the elements it keeps filters the list. *)
Lemma exec_for_range_filter {S X : Type} (env : environment S)
    (keep : X -> bool) (note : X -> prog unit) (xs : list X) :
  (forall x s, exists h s', exec env (note x) s = Some (tt, h, s')) ->
  forall acc s, exists h s',
    exec env (for_range xs acc
                (fun x ret => if keep x then note x ;; Ret (ret ++ [x])%list
                              else Ret ret)) s
    = Some ((acc ++ filter keep xs)%list, h, s').
Proof.
  intros Hnote. induction xs as [|x xs IH]; intros acc s; simpl.
  - exists [], s. now rewrite app_nil_r.
  - rewrite exec_bind. destruct (keep x).
    + rewrite exec_bind. destruct (Hnote x s) as (h1 & s1 & ->). simpl.
      destruct (IH (acc ++ [x])%list s1) as (h2 & s2 & ->).
      eexists _, s2. now rewrite <- app_assoc.
    + simpl. destruct (IH acc s) as (h2 & s2 & ->). now eexists _, _.
Qed.

End Sequential.

(** ** The two semantics agree on programs without goroutines *)

Section Agreement.
Context {imp : Imported}.

Lemma exec_lrun {S A : Type} (env : environment S) (p : prog A) :
  forall s a hist s',
    exec env p s = Some (a, hist, s') -> lrun p hist (Ret a).
Proof.
  induction p as [A a0 | A X c k IH | | | | | ]; intros s a hist s' Hx; simpl in Hx;
    try discriminate.
  - injection Hx as <- <- _. reflexivity.
  - destruct (env X c s) as [x s1].
    destruct (exec env (k x) s1) as [[[a1 h1] s2] | ] eqn:E; [ | discriminate].
    injection Hx as <- <- _. simpl. exists (k x). split; [now exists x | ].
    eapply IH. eassumption.
Qed.

(** A sequential execution is a run of the pool with the caller alone. *)
Lemma exec_steps {S A : Type} (env : environment S) (p : prog A) :
  forall s a hist s',
    exec env p s = Some (a, hist, s') ->
    steps A (start A p) (map (Ev 0) hist) (start A (Ret a)).
Proof.
  induction p as [A a0 | A X c k IH | | | | | ]; intros s a hist s' Hx; simpl in Hx;
    try discriminate.
  - injection Hx as <- <- _. apply steps_nil.
  - destruct (env X c s) as [x s1].
    destruct (exec env (k x) s1) as [[[a1 h1] s2] | ] eqn:E; [ | discriminate].
    injection Hx as <- <- _. simpl.
    eapply steps_cons; [ | eapply IH; eassumption].
    unfold start.
    apply (step_solo A [Main (Do c k)] [] 0 (Main (Do c k)) (A_call c x)
             (Main (k x)) [] []).
    + reflexivity.
    + simpl. exists (k x). split; [now exists x | reflexivity].
    + simpl. now split.
Qed.

End Agreement.

Section Queries.
Context {imp : Imported} {rnd : Rendering}.
Variable S : Type.
Variable env : environment S.

Lemma exec_GetPrefixedContainers (hnd : Handle) (prefix : string) (s : S) :
  exists hist s',
    exec env (GetPrefixedContainers hnd prefix) s
    = Some (let (containers, err) := fst (env _ (ListContainers_Call (ctx hnd) (conn hnd)) s) in
            if is_nil err
            then (filter (fun cont => HasPrefix (Names cont) prefix) containers, nil)
            else ([], err),
            hist, s').
Proof.
  unfold GetPrefixedContainers. rewrite exec_bind, exec_perform.
  destruct (env _ (ListContainers_Call (ctx hnd) (conn hnd)) s) as [[containers err] s1].
  simpl fst; simpl snd; cbv beta iota. destruct (is_nil err) eqn:Herr; simpl negb; cbv iota.
  - rewrite exec_bind, exec_perform. rewrite exec_bind.
    destruct (exec_for_range_filter env
                (fun cont => HasPrefix (Names cont) prefix)
                (fun cont => perform (log_Printf ("matching container: %s (%s)" ++ nl)
                                        [a_string (Names cont); a_string (Id cont)]))
                containers) with (acc := @Datatypes.nil Container)
                                 (s := snd (env _ (log_Printf "found %d containers in the system" [a_int (length containers)]) s1))
      as (h & s2 & Hloop).
    { intros x s0. rewrite exec_perform. destruct (fst _). now eexists _, _. }
    rewrite Hloop. rewrite exec_bind, exec_perform. simpl. now eexists _, _.
  - simpl. now eexists _, _.
Qed.


Lemma exec_GetPrefixedVolumes (hnd : Handle) (prefix : string) (s : S) :
  exists hist s',
    exec env (GetPrefixedVolumes hnd prefix) s
    = Some (let (volumes, err) := fst (env _ (GetVolumes_Call (ctx hnd) (conn hnd) [] true) s) in
            if is_nil err
            then (filter (fun vol => HasPrefix (Name vol) prefix) volumes, nil)
            else ([], err),
            hist, s').
Proof.
  unfold GetPrefixedVolumes. rewrite exec_bind, exec_perform.
  destruct (env _ (GetVolumes_Call (ctx hnd) (conn hnd) [] true) s) as [[volumes err] s1].
  simpl fst; simpl snd; cbv beta iota.
  destruct (is_nil err) eqn:Herr; simpl negb; cbv iota.
  - rewrite exec_bind, exec_perform. rewrite exec_bind.
    destruct (exec_for_range_filter env
                (fun vol => HasPrefix (Name vol) prefix)
                (fun vol => perform (log_Printf ("matching volume: %s @(%s)" ++ nl)
                                       [a_string (Name vol); a_string (MountPoint vol)]))
                volumes) with (acc := @Datatypes.nil Volume)
                              (s := snd (env _ (log_Printf "found %d volumess in the system" [a_int (length volumes)]) s1))
      as (h & s2 & Hloop).
    { intros x s0. rewrite exec_perform. destruct (fst _). now eexists _, _. }
    rewrite Hloop. rewrite exec_bind, exec_perform. simpl.
    apply is_nil_true in Herr. subst err. now eexists _, _.
  - simpl. now eexists _, _.
Qed.

Lemma exec_FindPrefixedContainer (hnd : Handle) (prefixedName : string) (s : S)
    (containers : list Container) (err : error) (hist : list action) (s' : S) :
  exec env (GetPrefixedContainers hnd prefixedName) s = Some ((containers, err), hist, s') ->
  exec env (FindPrefixedContainer hnd prefixedName) s
  = Some (if is_nil err
          then if Nat.eqb (length containers) 1
               then (nth 0 containers Container_zero, nil)
               else (Container_zero,
                     fmt_Errorf ("failed to found the container with name " ++ prefixedName))
          else (Container_zero, err),
          hist, s').
Proof.
  intros H. unfold FindPrefixedContainer. rewrite exec_bind, H. cbv beta iota.
  destruct (is_nil err); simpl negb; cbv iota; [ | simpl; now rewrite app_nil_r].
  destruct (Nat.eqb (length containers) 1); simpl; now rewrite app_nil_r.
Qed.

(** C5. When the engine reports a list, [GetPrefixedContainers] and
    [GetPrefixedVolumes] return the elements whose name starts with the
    prefix, byte for byte, in the order of the report. *)
Theorem prefixed_queries_filter_in_order (hnd : Handle) (prefix : string) (s : S) :
  (forall containers s1,
      env _ (ListContainers_Call (ctx hnd) (conn hnd)) s = ((containers, nil), s1) ->
      exists hist s',
        exec env (GetPrefixedContainers hnd prefix) s
        = Some ((filter (fun cont => HasPrefix (Names cont) prefix) containers, nil),
                hist, s'))
  /\ (forall volumes s1,
      env _ (GetVolumes_Call (ctx hnd) (conn hnd) [] true) s = ((volumes, nil), s1) ->
      exists hist s',
        exec env (GetPrefixedVolumes hnd prefix) s
        = Some ((filter (fun vol => HasPrefix (Name vol) prefix) volumes, nil),
                hist, s'))
  /\ (forall name, HasPrefix name prefix = true <-> exists rest, name = prefix ++ rest).
Proof.
  split; [ | split ].
  - intros containers s1 H.
    destruct (exec_GetPrefixedContainers hnd prefix s) as (hist & s' & E).
    rewrite H in E. simpl in E. eauto.
  - intros volumes s1 H.
    destruct (exec_GetPrefixedVolumes hnd prefix s) as (hist & s' & E).
    rewrite H in E. simpl in E. eauto.
  - intros name. apply HasPrefix_spec.
Qed.

(** C4, as the code has it. When the listing succeeds and
    [GetPrefixedContainers] yields exactly one container,
    [FindPrefixedContainer] returns it with a nil error; when it yields none
    or several, the result is an error whose text contains the prefix asked
    for, and a nil error comes only with exactly one match. When the listing
    fails, the result is the error of the listing as it is. *)
Theorem FindPrefixedContainer_exactly_one (hnd : Handle) (prefixedName : string)
    (s : S) (containers : list Container) (listed : error) (hist : list action)
    (s' : S) :
  exec env (GetPrefixedContainers hnd prefixedName) s
    = Some ((containers, listed), hist, s') ->
  exists cont err,
    exec env (FindPrefixedContainer hnd prefixedName) s = Some ((cont, err), hist, s')
    /\ (listed = nil ->
        (length containers = 1 -> containers = [cont] /\ err = nil)
        /\ (length containers <> 1 ->
            err <> nil /\ Contains (fmt_v err) prefixedName)
        /\ (err = nil <-> length containers = 1))
    /\ (listed <> nil -> err = listed /\ cont = Container_zero).
Proof.
  intros H. rewrite (exec_FindPrefixedContainer _ _ _ _ _ _ _ H).
  destruct (is_nil listed) eqn:Hnil.
  2:{ apply is_nil_false in Hnil. eexists _, _. split; [reflexivity | ].
      split; [congruence | auto]. }
  apply is_nil_true in Hnil. subst listed.
  destruct (Nat.eqb (length containers) 1) eqn:Hlen.
  - apply Nat.eqb_eq in Hlen. eexists _, _. split; [reflexivity | ].
    split; [intros _ | congruence].
    destruct containers as [|cont [|c2 rest]]; try discriminate. simpl.
    repeat split; auto; contradiction.
  - apply Nat.eqb_neq in Hlen. eexists _, _. split; [reflexivity | ].
    split; [intros _ | congruence].
    repeat split; try contradiction; try discriminate.
    cbv [fmt_Errorf fmt_v]. contains.
Qed.

(** C10. An error from [GetPrefixedContainers] or [GetPrefixedVolumes] comes
    with an empty slice, and an error from [FindPrefixedContainer] comes
    with the zero container. *)
Theorem errors_come_with_empty_results (hnd : Handle) (prefix : string) (s : S) :
  (forall ret err hist s',
      exec env (GetPrefixedContainers hnd prefix) s = Some ((ret, err), hist, s') ->
      err <> nil -> ret = [])
  /\ (forall ret err hist s',
      exec env (GetPrefixedVolumes hnd prefix) s = Some ((ret, err), hist, s') ->
      err <> nil -> ret = [])
  /\ (forall cont err hist s',
      exec env (FindPrefixedContainer hnd prefix) s = Some ((cont, err), hist, s') ->
      err <> nil -> cont = Container_zero).
Proof.
  split; [ | split ].
  - intros ret err hist s' H Herr.
    destruct (exec_GetPrefixedContainers hnd prefix s) as (h0 & s0 & E).
    rewrite H in E. injection E as E _ _.
    destruct (fst (env _ (ListContainers_Call (ctx hnd) (conn hnd)) s)) as [containers e].
    destruct (is_nil e); congruence.
  - intros ret err hist s' H Herr.
    destruct (exec_GetPrefixedVolumes hnd prefix s) as (h0 & s0 & E).
    rewrite H in E. injection E as E _ _.
    destruct (fst (env _ (GetVolumes_Call (ctx hnd) (conn hnd) [] true) s)) as [volumes e].
    destruct (is_nil e); congruence.
  - intros cont err hist s' H Herr.
    destruct (exec_GetPrefixedContainers hnd prefix s) as (h0 & s0 & E).
    destruct (fst (env _ (ListContainers_Call (ctx hnd) (conn hnd)) s)) as [containers e0].
    match type of E with _ = Some (?r, _, _) => destruct r as [cs e] eqn:Hr end.
    rewrite (exec_FindPrefixedContainer _ _ _ _ _ _ _ E) in H.
    injection H as H _ _.
    destruct (is_nil e); [ | congruence].
    destruct (Nat.eqb (length cs) 1); congruence.
Qed.

End Queries.

(** C5, on a world with three containers and three volumes. *)
Lemma prefixed_queries_filter_in_order_witness :
  (exists hist s',
      exec (engine demo_containers demo_volumes nil 0)
           (GetPrefixedContainers demo_handle "pack8s") 0
      = Some (([node01; registry], nil), hist, s'))
  /\ (exists hist s',
      exec (engine demo_containers demo_volumes nil 0)
           (GetPrefixedVolumes demo_handle "pack8s") 0
      = Some ((filter (fun vol => HasPrefix (Name vol) "pack8s") demo_volumes, nil),
              hist, s')).
Proof.
  destruct (prefixed_queries_filter_in_order nat
              (engine demo_containers demo_volumes nil 0) demo_handle "pack8s" 0)
    as (Hc & Hv & _).
  split.
  - apply (Hc demo_containers 0). reflexivity.
  - apply (Hv demo_volumes 0). reflexivity.
Defined.

(** C4, on a prefix that one container matches, on a prefix that two
    containers match, and on a listing that fails. *)
Lemma FindPrefixedContainer_exactly_one_witness :
  (exists cont err,
      exec (engine demo_containers demo_volumes nil 0)
           (FindPrefixedContainer demo_handle "pack8s-node") 0
      = Some ((cont, err),
              history (exec (engine demo_containers demo_volumes nil 0)
                            (GetPrefixedContainers demo_handle "pack8s-node") 0),
              0)
      /\ [node01] = [cont] /\ err = nil)
  /\ (exists cont err,
      exec (engine demo_containers demo_volumes nil 0)
           (FindPrefixedContainer demo_handle "pack8s") 0
      = Some ((cont, err),
              history (exec (engine demo_containers demo_volumes nil 0)
                            (GetPrefixedContainers demo_handle "pack8s") 0),
              0)
      /\ err <> nil /\ Contains (fmt_v (rnd := demo_rendering) err) "pack8s")
  /\ (exists cont err,
      exec (engine demo_containers demo_volumes io_EOF 0)
           (FindPrefixedContainer demo_handle "pack8s") 0
      = Some ((cont, err),
              history (exec (engine demo_containers demo_volumes io_EOF 0)
                            (GetPrefixedContainers demo_handle "pack8s") 0),
              0)
      /\ err = io_EOF /\ cont = Container_zero).
Proof.
  split; [ | split].
  - destruct (FindPrefixedContainer_exactly_one (rnd := demo_rendering) nat
                (engine demo_containers demo_volumes nil 0) demo_handle
                "pack8s-node" 0 [node01] nil _ 0 eq_refl)
      as (cont & err & Hfind & Hok & _).
    exists cont, err. split; [exact Hfind | ].
    exact (proj1 (Hok eq_refl) eq_refl).
  - destruct (FindPrefixedContainer_exactly_one (rnd := demo_rendering) nat
                (engine demo_containers demo_volumes nil 0) demo_handle
                "pack8s" 0 [node01; registry] nil _ 0 eq_refl)
      as (cont & err & Hfind & Hok & _).
    exists cont, err. split; [exact Hfind | ].
    apply (proj1 (proj2 (Hok eq_refl))). simpl. discriminate.
  - destruct (FindPrefixedContainer_exactly_one (rnd := demo_rendering) nat
                (engine demo_containers demo_volumes io_EOF 0) demo_handle
                "pack8s" 0 [] io_EOF _ 0 eq_refl)
      as (cont & err & Hfind & _ & Hfail).
    exists cont, err. split; [exact Hfind | ].
    apply Hfail. discriminate.
Defined.

(** C4, as stated, fails when the listing fails: [GetPrefixedContainers]
    yields no match, and the error of [FindPrefixedContainer] is the error
    of the listing, whose text does not contain the prefix. *)
Lemma FindPrefixedContainer_listing_error :
  let world := engine demo_containers demo_volumes io_ErrUnexpectedEOF 0 in
  option_map (fun x => fst (fst x))
    (exec world (GetPrefixedContainers demo_handle "pack8s") 0)
  = Some ([], io_ErrUnexpectedEOF)
  /\ option_map (fun x => fst (fst x))
       (exec world (FindPrefixedContainer demo_handle "pack8s") 0)
     = Some (Container_zero, io_ErrUnexpectedEOF)
  /\ ~ Contains (fmt_v (rnd := demo_rendering) io_ErrUnexpectedEOF) "pack8s".
Proof.
  split; [reflexivity | split; [reflexivity | ]].
  intros H. apply containsb_spec in H. vm_compute in H. discriminate.
Qed.

(** C10, on an engine whose listing fails. *)
Lemma errors_come_with_empty_results_witness :
  let world := engine demo_containers demo_volumes io_ErrUnexpectedEOF 0 in
  let listing := [A_call (ListContainers_Call (ctx demo_handle) (conn demo_handle))
                         (demo_containers, io_ErrUnexpectedEOF)] in
  let volumes := [A_call (GetVolumes_Call (ctx demo_handle) (conn demo_handle) [] true)
                         (demo_volumes, io_ErrUnexpectedEOF)] in
  (exec world (GetPrefixedContainers demo_handle "pack8s") 0
   = Some (([], io_ErrUnexpectedEOF), listing, 0)
   /\ exec world (GetPrefixedVolumes demo_handle "pack8s") 0
      = Some (([], io_ErrUnexpectedEOF), volumes, 0)
   /\ exec world (FindPrefixedContainer demo_handle "pack8s") 0
      = Some ((Container_zero, io_ErrUnexpectedEOF), listing, 0)
   /\ io_ErrUnexpectedEOF (imp := demo) <> nil)
  /\ @Datatypes.nil Container = []
  /\ @Datatypes.nil Volume = []
  /\ Container_zero = Container_zero.
Proof.
  intros world listing volumes.
  destruct (errors_come_with_empty_results nat world demo_handle "pack8s" 0)
    as (Hc & Hv & Hf).
  split; [repeat split; discriminate | split; [ | split]].
  - apply (Hc [] io_ErrUnexpectedEOF listing 0); [reflexivity | discriminate].
  - apply (Hv [] io_ErrUnexpectedEOF volumes 0); [reflexivity | discriminate].
  - apply (Hf Container_zero io_ErrUnexpectedEOF listing 0); [reflexivity | discriminate].
Defined.

Section Pull.
Context {imp : Imported} {rnd : Rendering}.
Variable S : Type.
Variable env : environment S.

Ltac answer x s :=
  match goal with
  | |- context [env ?X ?c ?s0] => destruct (env X c s0) as [x s]
  end.

(** C3. [PullImage] sleeps 0, 1, 2 and 6 seconds before its first, second,
    third and fourth attempt (nine seconds in all) and makes no fifth one. It
    stops at the first attempt that succeeds and returns nil. When the four
    attempts have failed it returns one error, which is not nil, whose text
    is failed to download, the reference, the count 4, times, giving up: it
    names the reference and the count and holds none of the errors of the
    attempts. *)
Theorem PullImage_retries_on_schedule (hnd : Handle) (ref : string) (out : Writer) (s : S) :
  exists err hist s' errs,
    exec env (PullImage hnd ref out) s = Some (err, hist, s')
    /\ schedule hist = interleave (firstn (length errs) tries) errs
    /\ 1 <= length errs <= 4
    /\ Forall (fun e => e <> nil) (removelast errs)
    /\ ((last errs nil = nil /\ err = nil)
        \/ (length errs = 4 /\ last errs nil <> nil
            /\ err = fmt_Errorf ("failed to download " ++ ref ++ " 4 times, giving up.")
            /\ err <> nil
            /\ fmt_v err = "failed to download " ++ ref ++ " 4 times, giving up."
            /\ Contains (fmt_v err) ref
            /\ Contains (fmt_v err) "4"))
    /\ tries = [0; 1; 2; 6] /\ list_sum tries = 9.
Proof.
  unfold PullImage, tries. cbn -[append].
  answer u1 s1. answer u2 s2. answer r1 s3. destruct r1 as [id1 e1].
  destruct (is_nil e1) eqn:H1; cbn -[append].
  { apply is_nil_true in H1. subst e1.
    eexists _, _, _, [nil]. split; [reflexivity | ]. cbn.
    repeat split; auto. }
  apply is_nil_false in H1.
  answer u3 s4. answer u4 s5. answer u5 s6. answer r2 s7. destruct r2 as [id2 e2].
  destruct (is_nil e2) eqn:H2; cbn -[append].
  { apply is_nil_true in H2. subst e2.
    eexists _, _, _, [e1; nil]. split; [reflexivity | ]. cbn.
    repeat split; auto. }
  apply is_nil_false in H2.
  answer u6 s8. answer u7 s9. answer u8 s10. answer r3 s11. destruct r3 as [id3 e3].
  destruct (is_nil e3) eqn:H3; cbn -[append].
  { apply is_nil_true in H3. subst e3.
    eexists _, _, _, [e1; e2; nil]. split; [reflexivity | ]. cbn.
    repeat split; auto. }
  apply is_nil_false in H3.
  answer u9 s12. answer u10 s13. answer u11 s14. answer r4 s15. destruct r4 as [id4 e4].
  destruct (is_nil e4) eqn:H4; cbn -[append].
  { apply is_nil_true in H4. subst e4.
    eexists _, _, _, [e1; e2; e3; nil]. split; [reflexivity | ]. cbn.
    repeat split; auto. }
  apply is_nil_false in H4.
  answer u12 s16.
  eexists _, _, _, [e1; e2; e3; e4]. split; [reflexivity | ].
  split; [reflexivity | ]. split; [simpl; lia | ].
  split; [simpl; auto | ].
  split; [ | now split].
  right. split; [reflexivity | ]. split; [exact H4 | ].
  split; [reflexivity | ]. split; [discriminate | ].
  split; [reflexivity | ].
  cbv [fmt_Errorf fmt_v]. split; contains.
Qed.

End Pull.

Section Construction.
Context {imp : Imported}.
Variable S : Type.
Variable env : environment S.

(** C8. [NewHandle] has no parameter for an address, so every call is one
    where no address is supplied. It makes exactly one connection attempt, to
    the default address unix:/run/podman/io.podman, and returns the
    connection and the error of that attempt as they are: it does not try
    again. Apart from its two log lines it is the operation of the
    specification called without an address. *)
Theorem NewHandle_dials_default_once (c : context) (s : S) :
  exists cn err hist s',
    exec env (NewHandle c) s = Some ((Build_Handle c cn, err), hist, s')
    /\ dials hist = [(DefaultSocket, cn, err)]
    /\ DefaultSocket = "unix:/run/podman/io.podman"
    /\ exec env (NewHandle c) s
       = exec env (perform (log_Printf "connecting to %s" [a_string DefaultSocket]) ;;
                   r <- NewHandle_spec c None ;;
                   perform (log_Printf "connected to %s" [a_string DefaultSocket]) ;;
                   Ret r) s.
Proof.
  unfold NewHandle, NewHandle_spec. cbn -[DefaultSocket].
  destruct (env unit _ s) as [u1 s1].
  destruct (env _ (varlink_NewConnection c DefaultSocket) s1) as [[cn err] s2].
  cbn -[DefaultSocket].
  destruct (env unit _ s2) as [u2 s3].
  now eexists _, _, _, _.
Qed.

End Construction.

(** With the engine of the small world, [NewHandle] and the operation of
    the specification without an address dial the same address, and with an
    address the operation of the specification dials that one. *)
Example NewHandle_spec_addresses :
  dialled (history (exec (engine [] [] nil 0) (NewHandle (ctx demo_handle)) 0))
  = dialled (history (exec (engine [] [] nil 0)
                           (NewHandle_spec (ctx demo_handle) None) 0))
  /\ dialled (history (exec (engine [] [] nil 0)
                           (NewHandle_spec (ctx demo_handle)
                                           (Some "unix:/tmp/podman.sock")) 0))
     = ["unix:/tmp/podman.sock"].
Proof. split; reflexivity. Qed.

(** Three failures, then a success: four attempts after 0, 1, 2 and 6
    seconds, nine seconds in all, and a nil error. *)
Example PullImage_fourth_attempt :
  let r := exec (engine [] [] nil 3) (PullImage demo_handle "docker.io/library/registry" tt) 0 in
  option_map (fun x => fst (fst x)) r = Some nil
  /\ schedule (history r)
     = [inl 0; inr (ErrorOccurred "registry unreachable");
        inl 1; inr (ErrorOccurred "registry unreachable");
        inl 2; inr (ErrorOccurred "registry unreachable");
        inl 6; inr nil]
  /\ 0 + 1 + 2 + 6 = 9.
Proof. vm_compute. repeat split. Qed.

(** An engine that never delivers: four attempts and the final error. *)
Example PullImage_gives_up :
  let r := exec (engine [] [] nil 10) (PullImage demo_handle "busybox" tt) 0 in
  option_map (fun x => fst (fst x)) r
    = Some (errorString "failed to download busybox 4 times, giving up.")
  /\ length (schedule (history r)) = 8.
Proof. vm_compute. repeat split. Qed.

(** ** Pools of threads *)

Section PoolProperties.
Context {imp : Imported}.
Variable R : Type.

Lemma nth_error_set_nth_other {T : Type} (l rest : list T) (i j : nat) (x : T) :
  i <> j -> nth_error (set_nth j x l ++ rest) i = nth_error (l ++ rest) i.
Proof.
  revert i j. induction l as [|y l IH]; intros i j Hij; simpl.
  - now destruct j.
  - destruct j as [|j], i as [|i]; simpl; try reflexivity; try congruence.
    apply IH. congruence.
Qed.

Lemma nth_error_set_nth_same {T : Type} (l rest : list T) (j : nat) (x y : T) :
  nth_error l j = Some y -> nth_error (set_nth j x l ++ rest) j = Some x.
Proof.
  revert j. induction l as [|z l IH]; intros j H.
  - now destruct j.
  - destruct j as [|j]; simpl in *; [reflexivity | now apply IH].
Qed.

Lemma length_set_nth {T : Type} (l : list T) (j : nat) (x : T) :
  length (set_nth j x l) = length l.
Proof.
  revert j. induction l as [|z l IH]; intros j; simpl; [now destruct j | ].
  destruct j; simpl; [reflexivity | now rewrite IH].
Qed.

Lemma trun_app (t t1 t2 : thread R) (h1 h2 : list action) :
  trun R t h1 t1 -> trun R t1 h2 t2 -> trun R t (h1 ++ h2) t2.
Proof.
  revert t. induction h1 as [|a h1 IH]; intros t H1 H2; simpl in *.
  - now subst.
  - destruct H1 as (t' & Hs & H1). exists t'. split; [exact Hs | now apply IH].
Qed.

Lemma solo_spawn (cl cl' : list bool) (a : action) (spawn : list (thread R)) (i : nat) :
  solo R cl a spawn cl' -> spawn = spawn_of R (Ev i a).
Proof. destruct a; simpl; intuition. Qed.

(** One step, seen from thread [i]. *)
Lemma step_thread (cfg cfg' : config R) (e : event) (rest : list (thread R)) (i : nat) :
  step R cfg e cfg' ->
  length (threads R cfg') = length (threads R cfg) + length (spawn_of R e)
  /\ match nth_error (threads R cfg' ++ rest) i with
     | Some t' =>
         exists t, nth_error (threads R cfg ++ spawn_of R e ++ rest) i = Some t
                   /\ trun R t (acts_of i e) t'
     | None => True
     end
  /\ (acts_of i e <> [] -> i < length (threads R cfg)).
Proof.
  intros Hstep. destruct Hstep as [ts cl j t a t' spawn cl' Hj Ht Hsolo
                                  | ts cl s r ts1 ts1' tr1 tr1' ch v Hsr Hs Hr Hts Htr Hcl
                                  | ts cl j t a t' Hj Ht Hp ]; simpl threads.
  - rewrite (solo_spawn _ _ _ _ j Hsolo). split; [ | split].
    + now rewrite length_app, length_set_nth.
    + rewrite <- !app_assoc. simpl acts_of.
      destruct (Nat.eqb_spec i j) as [-> | Hij].
      * rewrite (nth_error_set_nth_same _ _ _ _ _ Hj).
        exists t. split.
        -- rewrite nth_error_app1; [exact Hj | ]. apply nth_error_Some. congruence.
        -- simpl. eauto.
      * rewrite (nth_error_set_nth_other _ _ _ _ _ Hij).
        destruct (nth_error _ i) as [t0 | ]; [ | exact I]. exists t0. now split.
    + simpl. destruct (Nat.eqb_spec i j) as [-> | Hij]; [ | congruence].
      intros _. apply nth_error_Some. congruence.
  - split; [ | split].
    + simpl. now rewrite !length_set_nth.
    + simpl spawn_of. simpl app. simpl acts_of.
      destruct (Nat.eqb_spec i r) as [-> | Hir].
      * assert (Hr' : nth_error (set_nth s ts1' ts) r = Some tr1).
        { rewrite <- (app_nil_r (set_nth s ts1' ts)).
          rewrite nth_error_set_nth_other by congruence. now rewrite app_nil_r. }
        rewrite (nth_error_set_nth_same _ _ _ _ _ Hr').
        destruct (Nat.eqb_spec r s) as [E | _]; [congruence | ].
        exists tr1. split.
        -- rewrite nth_error_app1; [exact Hr | ]. apply nth_error_Some. congruence.
        -- simpl. eauto.
      * rewrite (nth_error_set_nth_other _ _ _ _ _ Hir).
        destruct (Nat.eqb_spec i s) as [-> | His].
        -- rewrite (nth_error_set_nth_same _ _ _ _ _ Hs).
           exists ts1. split.
           ++ rewrite nth_error_app1; [exact Hs | ]. apply nth_error_Some. congruence.
           ++ simpl. eauto.
        -- rewrite (nth_error_set_nth_other _ _ _ _ _ His).
           destruct (nth_error _ i) as [t0 | ]; [ | exact I]. exists t0. now split.
    + simpl.
      destruct (Nat.eqb_spec i s) as [-> | His].
      * intros _. apply nth_error_Some. congruence.
      * destruct (Nat.eqb_spec i r) as [-> | Hir]; [ | simpl; congruence].
        intros _. apply nth_error_Some. congruence.
  - split; [ | split].
    + simpl. lia.
    + simpl. destruct (nth_error _ i) as [t0 | ]; [ | exact I]. exists t0. now split.
    + simpl. congruence.
Qed.

(** Every thread of a pool stems from a thread of the initial pool or from a
    goroutine started on the way, and has run the actions the trace gives
    it; a position that is still empty has done nothing. *)
Lemma steps_threads (cfg cfg' : config R) (tr : list event) :
  steps R cfg tr cfg' ->
  length (threads R cfg') = length (threads R cfg) + length (spawned R tr)
  /\ forall i,
       match nth_error (threads R cfg') i with
       | Some t' =>
           exists t, nth_error (threads R cfg ++ spawned R tr) i = Some t
                     /\ trun R t (proj i tr) t'
       | None => proj i tr = []
       end.
Proof.
  induction 1 as [cfg | cfg e cfg1 tr cfg' Hstep Hsteps [IHlen IH]].
  - simpl. split; [lia | ]. intros i. rewrite app_nil_r.
    destruct (nth_error _ i) as [t | ]; [ | reflexivity]. exists t. now split.
  - simpl spawned. simpl proj.
    destruct (step_thread _ _ _ [] 0 Hstep) as (Hlen & _ & _).
    split; [rewrite length_app; lia | ].
    intros i. specialize (IH i).
    destruct (step_thread _ _ _ (spawned R tr) i Hstep) as (_ & Hone & Hact).
    destruct (nth_error (threads R cfg') i) as [t' | ] eqn:Hi.
    + destruct IH as (t1 & Ht1 & Hrun). rewrite Ht1 in Hone.
      destruct Hone as (t & Ht & Hrun1). exists t. split; [exact Ht | ].
      eapply trun_app; eassumption.
    + rewrite IH, app_nil_r.
      destruct (acts_of i e) as [|a l] eqn:Ha; [reflexivity | ].
      exfalso. assert (Hlt : i < length (threads R cfg)) by (apply Hact; congruence).
      apply nth_error_None in Hi. lia.
Qed.

End PoolProperties.

Section PoolInvariants.
Context {imp : Imported}.
Variable R : Type.
Variables Jc Jg : thread R -> Prop.
Variable Q : bool -> action -> Prop.

Hypothesis caller_step : forall t a t',
  Jc t -> tstep R t a t' -> Jc t' /\ Q true a /\ Forall Jg (go_of R a).
Hypothesis goroutine_step : forall t a t',
  Jg t -> tstep R t a t' -> Jg t' /\ Q false a /\ Forall Jg (go_of R a).

Lemma pool_ok_nth (ts : list (thread R)) (i : nat) (t : thread R) :
  pool_ok R Jc Jg ts -> nth_error ts i = Some t -> if Nat.eqb i 0 then Jc t else Jg t.
Proof.
  destruct ts as [|m gs]; [now destruct i | ]. intros [Hm Hgs] Hi.
  destruct i as [|i]; simpl in *.
  - now injection Hi as <-.
  - rewrite Forall_forall in Hgs. apply Hgs. eapply nth_error_In; eassumption.
Qed.

Lemma Forall_set_nth {T : Type} (P : T -> Prop) (l : list T) (i : nat) (x : T) :
  Forall P l -> P x -> Forall P (set_nth i x l).
Proof.
  intros Hl Hx. revert i. induction Hl as [|y l Hy Hl IH]; intros i; simpl.
  - destruct i; constructor.
  - destruct i; constructor; auto.
Qed.

Lemma pool_ok_set (ts : list (thread R)) (i : nat) (t : thread R) :
  pool_ok R Jc Jg ts -> (if Nat.eqb i 0 then Jc t else Jg t) ->
  pool_ok R Jc Jg (set_nth i t ts).
Proof.
  destruct ts as [|m gs]; [now destruct i | ]. intros [Hm Hgs] Ht.
  destruct i as [|i]; simpl in *; [now split | ].
  split; [exact Hm | now apply Forall_set_nth].
Qed.

Lemma pool_ok_app (ts sp : list (thread R)) :
  pool_ok R Jc Jg ts -> ts <> [] -> Forall Jg sp -> pool_ok R Jc Jg (ts ++ sp).
Proof.
  destruct ts as [|m gs]; [congruence | ]. intros [Hm Hgs] _ Hsp. simpl.
  split; [exact Hm | ]. apply Forall_app. now split.
Qed.

Lemma thread_step_ok (i : nat) (t t' : thread R) (a : action) :
  (if Nat.eqb i 0 then Jc t else Jg t) -> tstep R t a t' ->
  (if Nat.eqb i 0 then Jc t' else Jg t') /\ Q (Nat.eqb i 0) a /\ Forall Jg (go_of R a).
Proof.
  destruct (Nat.eqb i 0); intros Ht Hs; [eapply caller_step | eapply goroutine_step];
    eassumption.
Qed.

Lemma set_nth_not_nil {T : Type} (l : list T) (i : nat) (x y : T) :
  nth_error l i = Some y -> set_nth i x l <> [].
Proof. destruct l, i; simpl; congruence. Qed.

Lemma step_pool (cfg cfg' : config R) (e : event) :
  step R cfg e cfg' ->
  pool_ok R Jc Jg (threads R cfg) ->
  pool_ok R Jc Jg (threads R cfg') /\ event_ok Q e.
Proof.
  intros Hstep Hok.
  destruct Hstep as [ts cl j t a t' spawn cl' Hj Ht Hsolo
                    | ts cl s r ts1 ts1' tr1 tr1' ch v Hsr Hs Hr Hts Htr Hcl
                    | ts cl j t a t' Hj Ht Hp ]; simpl threads in *.
  - destruct (thread_step_ok j t t' a (pool_ok_nth _ _ _ Hok Hj) Ht) as (Ht' & Hq & Hgo).
    split; [ | exact Hq].
    apply pool_ok_app.
    + now apply pool_ok_set.
    + eapply set_nth_not_nil; eassumption.
    + rewrite (solo_spawn R _ _ _ _ j Hsolo). exact Hgo.
  - split; [ | exact Logic.I].
    destruct (thread_step_ok s ts1 ts1' _ (pool_ok_nth _ _ _ Hok Hs) Hts) as (Hs' & _ & _).
    destruct (thread_step_ok r tr1 tr1' _ (pool_ok_nth _ _ _ Hok Hr) Htr) as (Hr' & _ & _).
    apply pool_ok_set; [ | exact Hr']. now apply pool_ok_set.
  - split; [exact Hok | exact Logic.I].
Qed.

(** A property of the threads that every step keeps holds of every pool
    reached, and the events on the way are as the steps allow. *)
Lemma steps_pool (cfg cfg' : config R) (tr : list event) :
  steps R cfg tr cfg' ->
  pool_ok R Jc Jg (threads R cfg) ->
  pool_ok R Jc Jg (threads R cfg') /\ Forall (event_ok Q) tr.
Proof.
  induction 1 as [cfg | cfg e cfg1 tr cfg' Hstep Hsteps IH]; intros Hok.
  - split; [exact Hok | constructor].
  - destruct (step_pool _ _ _ Hstep Hok) as (Hok1 & He).
    destruct (IH Hok1) as (Hok' & Htr). split; [exact Hok' | now constructor].
Qed.

End PoolInvariants.

Section CallProperties.
Context {imp : Imported}.

Lemma lstep_calls (P : forall X : Type, call X -> Prop) {A : Type}
    (p q : prog A) (a : action) :
  calls_satisfy P p -> lstep p a q ->
  calls_satisfy P q /\ action_calls P a
  /\ match a with A_go g => calls_satisfy P g | _ => True end.
Proof.
  destruct p; simpl; intros Hp Hs.
  - contradiction.
  - destruct Hs as (x & -> & ->). destruct Hp as [Hc Hk]. simpl. auto.
  - destruct Hs as (ch & -> & ->). simpl. auto.
  - destruct Hs as (-> & ->). simpl. auto.
  - destruct Hs as (v & -> & ->). simpl. auto.
  - destruct Hs as (-> & ->). simpl. auto.
  - destruct Hs as (-> & ->). destruct Hp. simpl. auto.
Qed.

Lemma tstep_calls (P : forall X : Type, call X -> Prop) {R : Type}
    (t : thread R) (a : action) (t' : thread R) :
  thread_calls P t -> tstep R t a t' ->
  thread_calls P t' /\ action_calls P a /\ Forall (thread_calls P) (go_of R a).
Proof.
  destruct t as [p | p]; simpl; intros Hp (q & Hs & ->);
    destruct (lstep_calls P _ _ _ Hp Hs) as (Hq & Ha & Hg);
    (split; [exact Hq | split; [exact Ha | ]]);
    destruct a; simpl; auto.
Qed.

(** If every call reachable in the caller's program satisfies [P], so does
    every call of every thread in every run. *)
Lemma steps_calls (P : forall X : Type, call X -> Prop) {R : Type}
    (p : prog R) (tr : list event) (cfg : config R) :
  calls_satisfy P p ->
  steps R (start R p) tr cfg ->
  forall i (X : Type) (c : call X) (x : X), In (Ev i (A_call c x)) tr -> P X c.
Proof.
  intros Hp Hsteps.
  destruct (steps_pool R (thread_calls P) (thread_calls P)
              (fun _ a => action_calls P a)
              (tstep_calls P) (tstep_calls P) _ _ _ Hsteps) as (_ & Hev).
  { simpl. split; [exact Hp | constructor]. }
  intros i X c x Hin. rewrite Forall_forall in Hev.
  exact (Hev _ Hin).
Qed.

Lemma calls_satisfy_bind (P : forall X : Type, call X -> Prop) {A B : Type}
    (p : prog A) (f : A -> prog B) :
  calls_satisfy P p -> (forall a, calls_satisfy P (f a)) -> calls_satisfy P (bind p f).
Proof.
  revert B f. induction p as [A a | A X c k IH | A k IH | A ch v k IH
                             | A ch k IH | A ch k IH | A g IHg k IH];
    intros B f Hp Hf; simpl in *; auto.
  - destruct Hp. split; auto.
  - destruct Hp. split; auto.
Qed.

Lemma calls_satisfy_for_range (P : forall X : Type, call X -> Prop) {X St : Type}
    (xs : list X) (st : St) (body : X -> St -> prog St) :
  (forall x st, calls_satisfy P (body x st)) ->
  calls_satisfy P (for_range xs st body).
Proof.
  intros Hbody. revert st. induction xs as [|x xs IH]; intros st; simpl; [exact I | ].
  apply calls_satisfy_bind; auto.
Qed.

(** Goroutines that start nothing: the caller starts every thread. *)
Lemma lstep_go_free {A : Type} (p q : prog A) (a : action) :
  go_free p -> lstep p a q -> go_free q /\ is_go a = false.
Proof.
  destruct p; simpl; intros Hp Hs; try contradiction.
  - destruct Hs as (x & -> & ->). auto.
  - destruct Hs as (ch & -> & ->). auto.
  - destruct Hs as (-> & ->). auto.
  - destruct Hs as (v & -> & ->). auto.
  - destruct Hs as (-> & ->). auto.
Qed.

Lemma lstep_go_flat {A : Type} (p q : prog A) (a : action) :
  go_flat p -> lstep p a q ->
  go_flat q /\ match a with A_go g => go_free g | _ => True end.
Proof.
  destruct p; simpl; intros Hp Hs; try contradiction.
  - destruct Hs as (x & -> & ->). auto.
  - destruct Hs as (ch & -> & ->). auto.
  - destruct Hs as (-> & ->). auto.
  - destruct Hs as (v & -> & ->). auto.
  - destruct Hs as (-> & ->). auto.
  - destruct Hs as (-> & ->). destruct Hp. auto.
Qed.

Lemma spawned_by_caller {R : Type} (tr : list event) :
  Forall (event_ok (fun caller a => caller = false -> is_go a = false)) tr ->
  spawned R tr = gos R (proj 0 tr).
Proof.
  induction 1 as [|e tr He Htr IH]; [reflexivity | ].
  simpl. unfold gos in *. rewrite flat_map_app, <- IH. f_equal.
  destruct e as [i a | s r ch v | i a]; simpl.
  - destruct i as [|i]; simpl; [now rewrite app_nil_r | ].
    simpl in He. specialize (He eq_refl). destruct a; simpl in *; congruence.
  - destruct s, r; reflexivity.
  - reflexivity.
Qed.

Lemma steps_spawned {R : Type} (p : prog R) (tr : list event) (cfg : config R) :
  go_flat p ->
  steps R (start R p) tr cfg ->
  spawned R tr = gos R (proj 0 tr).
Proof.
  intros Hp Hsteps. apply spawned_by_caller.
  refine (proj2 (steps_pool R
            (fun t => match t with Main q => go_flat q | Goroutine q => go_free q end)
            (fun t => match t with Main q => go_free q | Goroutine q => go_free q end)
            _ _ _ _ _ _ Hsteps _)).
  - intros t a t' Ht Hs. destruct t as [q | q]; destruct Hs as (q' & Hs & ->).
    + destruct (lstep_go_flat _ _ _ Ht Hs) as (Hq & Ha).
      split; [exact Hq | split; [congruence | ]].
      destruct a; simpl; auto.
    + destruct (lstep_go_free _ _ _ Ht Hs) as (Hq & Ha).
      split; [exact Hq | split; [congruence | ]].
      destruct a; simpl; auto; discriminate.
  - intros t a t' Ht Hs. destruct t as [q | q]; destruct Hs as (q' & Hs & ->);
      destruct (lstep_go_free _ _ _ Ht Hs) as (Hq & Ha);
      (split; [exact Hq | split; [auto | ]]);
      destruct a; simpl; auto; discriminate.
  - simpl. split; [exact Hp | constructor].
Qed.

End CallProperties.

Section HandleProperties.
Context {imp : Imported}.

Lemma calls_satisfy_for_range_return (P : forall X : Type, call X -> Prop)
    {X R : Type} (xs : list X) (idx : nat) (body : nat -> X -> prog (option R))
    (after : prog R) :
  (forall i x, calls_satisfy P (body i x)) -> calls_satisfy P after ->
  calls_satisfy P (for_range_return idx xs body after).
Proof.
  intros Hbody Hafter. revert idx.
  induction xs as [|x xs IH]; intros idx; simpl; [exact Hafter | ].
  apply calls_satisfy_bind; [apply Hbody | ].
  intros [v | ]; [exact I | apply IH].
Qed.

Ltac calls :=
  repeat first
    [ exact I
    | match goal with
      | |- calls_satisfy _ (bind _ _) => apply calls_satisfy_bind; [ | intros ]
      | |- calls_satisfy _ (for_range _ _ _) => apply calls_satisfy_for_range; intros
      | |- calls_satisfy _ (for_range_return _ _ _ _) =>
          apply calls_satisfy_for_range_return; intros
      | |- calls_satisfy _ (if ?b then _ else _) => destruct b
      | |- calls_satisfy _ (match ?x with (_, _) => _ end) => destruct x
      | |- calls_satisfy _ (match ?x with Some _ => _ | None => _ end) => destruct x
      | |- calls_satisfy _ (perform _) => split; [simpl; auto | intros; exact I]
      | |- calls_satisfy _ (Ret _) => exact I
      | |- calls_satisfy _ (defer _ _) => unfold defer
      | |- calls_satisfy _ (Go _ _) => split
      | |- calls_satisfy _ (go _) => split
      | |- calls_satisfy _ (send _ _) => exact I
      | |- calls_satisfy _ (close _) => exact I
      | |- calls_satisfy _ (recv _) => intro; exact I
      | |- calls_satisfy _ make_chan => intro; exact I
      end ].

Lemma Terminal_on_handle (hnd : Handle) (container : string) (args : list string)
    (file : File) :
  calls_satisfy (on_handle hnd) (Terminal hnd container args file).
Proof.
  unfold Terminal, Terminal_stream, interrupt_listener, copy_to_terminal,
    copy_to_socket, exec_call, io_Copy.
  calls.
Qed.

Lemma invoke_on_handle (hnd : Handle) (op : operation) :
  calls_satisfy (on_handle hnd) (invoke hnd op).
Proof.
  destruct op; unfold invoke; apply calls_satisfy_bind; try (intros; exact I).
  - apply Terminal_on_handle.
  - unfold Exec. calls.
  - unfold GetPrefixedContainers. calls.
  - unfold GetPrefixedVolumes. calls.
  - unfold FindPrefixedContainer, GetPrefixedContainers. calls.
  - unfold RemoveVolumes. calls.
  - unfold RemoveContainer. calls.
  - unfold CreateNamedVolume. calls.
  - unfold CreateContainer. calls.
  - unfold StopContainer. calls.
  - unfold StartContainer. calls.
  - unfold WaitContainer. calls.
  - unfold PullImage. calls.
Qed.

Lemma invoke_all_on_handle (hnd : Handle) (ops : list operation) :
  calls_satisfy (on_handle hnd) (invoke_all hnd ops).
Proof.
  induction ops as [|op ops IH]; simpl; [exact I | ].
  apply calls_satisfy_bind; [apply invoke_on_handle | intros; exact IH].
Qed.

End HandleProperties.

Section TerminalProperties.
Context {imp : Imported}.
Variables (hnd : Handle) (container : string) (args : list string) (file : File).

Ltac next H a p' :=
  match type of H with
  | lrun _ ?hist _ =>
      destruct hist as [|a hist]; simpl in H;
      [ subst | destruct H as (p' & Hs & H); simpl in Hs ]
  end.

(** The caller follows the text of [Terminal]. *)
Lemma Terminal_runs (hist : list action) (p : prog error) :
  lrun (Terminal hnd container args file) hist p ->
  Terminal_at hnd container args file hist p.
Proof.
  intros H. unfold Terminal in H.
  next H a1 p1; [now apply at_start | ].
  destruct Hs as (e1 & -> & ->).
  destruct (is_nil e1) eqn:E1; simpl in H.
  2:{ next H a2 p2; [ | contradiction]. apply at_exit. now apply exit_attach. }
  apply is_nil_true in E1. subst e1.
  next H a2 p2; [now apply at_attached | ].
  destruct Hs as ([socks e2] & -> & ->). simpl in H.
  destruct (is_nil e2) eqn:E2; simpl in H.
  2:{ next H a3 p3; [ | contradiction]. apply at_exit. now apply exit_sockets. }
  apply is_nil_true in E2. subst e2.
  next H a3 p3; [now apply at_sockets | ].
  destruct Hs as ([attached e3] & -> & ->). simpl in H.
  destruct (is_nil e3) eqn:E3; simpl in H.
  2:{ next H a4 p4; [ | contradiction]. apply at_exit. now apply exit_open. }
  apply is_nil_true in E3. subst e3.
  next H a4 p4; [now apply at_opened | ].
  destruct Hs as ([state e4] & -> & ->). simpl in H.
  destruct (is_nil e4) eqn:E4; simpl in H.
  2:{ next H a5 p5; [now apply at_raw_failed | ].
      destruct Hs as (x & -> & ->).
      next H a6 p6; [ | contradiction]. apply at_exit. now apply exit_raw. }
  apply is_nil_true in E4. subst e4.
  next H a5 p5; [apply (at_starting _ _ _ _ socks attached state 0 0); [lia | reflexivity] | ].
  destruct Hs as (ch & -> & ->).
  next H a6 p6; [apply (at_starting _ _ _ _ socks attached state ch 1); [lia | reflexivity] | ].
  destruct Hs as (-> & ->).
  next H a7 p7; [apply (at_starting _ _ _ _ socks attached state ch 2); [lia | reflexivity] | ].
  destruct Hs as (-> & ->).
  next H a8 p8; [apply (at_starting _ _ _ _ socks attached state ch 3); [lia | reflexivity] | ].
  destruct Hs as (-> & ->).
  next H a9 p9; [apply (at_starting _ _ _ _ socks attached state ch 4); [lia | reflexivity] | ].
  destruct Hs as (-> & ->).
  next H a10 p10; [apply (at_starting _ _ _ _ socks attached state ch 5); [lia | reflexivity] | ].
  destruct Hs as (v & -> & ->).
  next H a11 p11; [apply (at_received _ _ _ _ socks attached state ch v) | ].
  destruct Hs as (x & -> & ->).
  next H a12 p12; [apply (at_restored _ _ _ _ socks attached state ch v x) | ].
  destruct Hs as (y & -> & ->).
  next H a13 p13; [ | contradiction].
  apply at_exit. apply (exit_stream _ _ _ _ socks attached state ch v x y).
Qed.


Lemma interrupt_listener_runs (errChan : nat) (hist : list action) (p : prog unit) :
  lrun (interrupt_listener errChan) hist p ->
  exists n, hist = firstn n (interrupt_history errChan).
Proof.
  intros H. unfold interrupt_listener in H.
  next H a1 p1; [now exists 0 | ]. destruct Hs as ([] & -> & ->).
  next H a2 p2; [now exists 1 | ]. destruct Hs as ([] & -> & ->).
  next H a3 p3; [now exists 2 | ]. destruct Hs as (-> & ->).
  next H a4 p4; [now exists 3 | contradiction].
Qed.

Lemma copy_runs (dst src : File) (errChan : nat) (hist : list action) (p : prog unit) :
  lrun ('(_, err) <- io_Copy dst src ;; send errChan err) hist p ->
  exists n written ended, hist = firstn n (copy_history dst src errChan written ended).
Proof.
  intros H. unfold io_Copy in H.
  next H a1 p1; [now exists 0, 0, end_of_stream | ].
  destruct Hs as ([written ended] & -> & ->).
  next H a2 p2; [now exists 1, written, ended | ]. destruct Hs as (-> & ->).
  next H a3 p3; [now exists 2, written, ended | contradiction].
Qed.

Lemma exec_call_runs (errChan : nat) (hist : list action) (p : prog unit) :
  lrun (exec_call hnd container args file errChan) hist p ->
  exists n tty err, hist = firstn n (exec_history hnd container args file errChan tty err).
Proof.
  intros H. unfold exec_call in H.
  next H a1 p1; [now exists 0, true, nil | ]. destruct Hs as (tty & -> & ->).
  next H a2 p2; [now exists 1, tty, nil | ]. destruct Hs as (err & -> & ->).
  next H a3 p3; [now exists 2, tty, err | ]. destruct Hs as (-> & ->).
  next H a4 p4; [now exists 3, tty, err | contradiction].
Qed.

End TerminalProperties.

Section TerminalPool.
Context {imp : Imported}.
Variables (hnd : Handle) (container : string) (args : list string) (file : File).

Lemma trun_Main {R : Type} (p : prog R) (hist : list action) (t' : thread R) :
  trun R (Main p) hist t' -> exists q, t' = Main q /\ lrun p hist q.
Proof.
  revert p. induction hist as [|a hist IH]; intros p H; simpl in H.
  - exists p. now split.
  - destruct H as (t1 & (p1 & Hs & ->) & H). destruct (IH _ H) as (q & -> & Hq).
    exists q. split; [reflexivity | ]. simpl. eauto.
Qed.

Lemma trun_Goroutine {R : Type} (p : prog unit) (hist : list action) (t' : thread R) :
  trun R (Goroutine p) hist t' -> exists q, t' = Goroutine q /\ lrun p hist q.
Proof.
  revert p. induction hist as [|a hist IH]; intros p H; simpl in H.
  - exists p. now split.
  - destruct H as (t1 & (p1 & Hs & ->) & H). destruct (IH _ H) as (q & -> & Hq).
    exists q. split; [reflexivity | ]. simpl. eauto.
Qed.

Lemma go_flat_bind {A B : Type} (p : prog A) (f : A -> prog B) :
  go_flat p -> (forall a, go_flat (f a)) -> go_flat (bind p f).
Proof.
  revert B f. induction p as [A a | A X c k IH | A k IH | A ch v k IH
                             | A ch k IH | A ch k IH | A g IHg k IH];
    intros B f Hp Hf; simpl in *; auto.
  destruct Hp. split; auto.
Qed.

Lemma Terminal_go_flat : go_flat (Terminal hnd container args file).
Proof.
  unfold Terminal, defer, Terminal_stream.
  repeat first
    [ exact I
    | match goal with
      | |- go_flat (bind _ _) => apply go_flat_bind; [ | intros ]
      | |- go_flat (if ?b then _ else _) => destruct b
      | |- go_flat (match ?x with (_, _) => _ end) => destruct x
      | |- go_flat (perform _) => intro; exact I
      | |- go_flat make_chan => intro; exact I
      | |- go_flat (recv _) => intro; exact I
      | |- go_flat (go _) => split; [ | exact I]
      end ].
  all: unfold interrupt_listener, copy_to_terminal, copy_to_socket, exec_call, io_Copy;
    simpl; auto.
  all: intros [written ended]; exact I.
Qed.

Lemma gos_app {R : Type} (h1 h2 : list action) :
  gos R (h1 ++ h2) = (gos R h1 ++ gos R h2)%list.
Proof. apply flat_map_app. Qed.

(** The goroutines the caller has started are the first ones of the four. *)
Lemma Terminal_spawns (hist : list action) (p : prog error) :
  Terminal_at hnd container args file hist p ->
  gos error hist = []
  \/ exists socks attached state errChan n rest,
       hist = (prepared hnd container file socks attached state
               ++ A_make errChan :: rest)%list
       /\ gos error hist
          = firstn n (map Goroutine (activities hnd container args file attached errChan)).
Proof.
  intros H. destruct H as [hist r Hexit | | | | | | socks attached state ch n p Hn Hp | | ].
  - destruct Hexit; try (left; reflexivity).
    right. exists socks, attached, state, errChan, 4. eexists. split; reflexivity.
  - now left.
  - now left.
  - now left.
  - now left.
  - now left.
  - destruct n as [|n]; [left; reflexivity | ].
    right. exists socks, attached, state, ch, n. eexists. split; [reflexivity | ].
    do 5 (destruct n as [|n]; [reflexivity | ]). lia.
  - right. exists socks, attached, state, errChan, 4. eexists. split; reflexivity.
  - right. exists socks, attached, state, errChan, 4. eexists. split; reflexivity.
Qed.

Lemma nth_error_firstn_Some {T : Type} (l : list T) (n j : nat) (x : T) :
  nth_error (firstn n l) j = Some x -> nth_error l j = Some x.
Proof.
  revert n j. induction l as [|y l IH]; intros n j H.
  - now rewrite firstn_nil in H.
  - destruct n as [|n]; [now destruct j | ].
    destruct j as [|j]; simpl in *; [exact H | eapply IH; eassumption].
Qed.

(** In every run of [Terminal] the caller is somewhere in its text, and a
    goroutine that has done something is one of the four, at its position,
    somewhere in its own text. *)
Lemma Terminal_pool (tr : list event) (cfg : config error) :
  steps error (start error (Terminal hnd container args file)) tr cfg ->
  (exists p, nth_error (threads error cfg) 0 = Some (Main p)
             /\ Terminal_at hnd container args file (proj 0 tr) p)
  /\ forall i, i <> 0 ->
       proj i tr = []
       \/ exists socks attached state errChan rest,
            proj 0 tr = (prepared hnd container file socks attached state
                         ++ A_make errChan :: rest)%list
            /\ activity_at hnd container args file attached errChan i (proj i tr).
Proof.
  intros Hsteps.
  destruct (steps_threads _ _ _ _ Hsteps) as (Hlen & Hth).
  pose proof (steps_spawned _ _ _ Terminal_go_flat Hsteps) as Hspawn.
  assert (Hmain : exists p, nth_error (threads error cfg) 0 = Some (Main p)
                            /\ Terminal_at hnd container args file (proj 0 tr) p).
  { specialize (Hth 0).
    destruct (nth_error (threads error cfg) 0) as [t' | ] eqn:H0.
    - destruct Hth as (t & Ht & Hrun). simpl in Ht. injection Ht as <-.
      destruct (trun_Main _ _ _ Hrun) as (q & -> & Hq).
      exists q. split; [reflexivity | now apply Terminal_runs].
    - apply nth_error_None in H0. simpl in Hlen. lia. }
  split; [exact Hmain | ].
  destruct Hmain as (p & _ & Hat).
  intros i Hi. specialize (Hth i).
  destruct (nth_error (threads error cfg) i) as [t' | ]; [ | now left].
  destruct Hth as (t & Ht & Hrun).
  destruct i as [|j]; [congruence | ]. simpl in Ht. rewrite Hspawn in Ht.
  destruct (Terminal_spawns _ _ Hat) as [Hnone | (socks & attached & state & ch & n & rest & Hhist & Hgos)].
  { rewrite Hnone in Ht. now destruct j. }
  rewrite Hgos in Ht. apply nth_error_firstn_Some in Ht.
  right. exists socks, attached, state, ch, rest. split; [exact Hhist | ].
  destruct j as [|[|[|[|j]]]]; simpl in Ht; try (now destruct j);
    injection Ht as <-; destruct (trun_Goroutine _ _ _ Hrun) as (q & _ & Hq).
  - destruct (interrupt_listener_runs _ _ _ Hq) as (k & ->). constructor.
  - destruct (copy_runs _ _ _ _ _ Hq) as (k & written & ended & ->). constructor.
  - destruct (copy_runs _ _ _ _ _ Hq) as (k & written & ended & ->). constructor.
  - destruct (exec_call_runs _ _ _ _ _ _ _ Hq) as (k & tty & err & ->). constructor.
Qed.

End TerminalPool.

Section ChannelProperties.
Context {imp : Imported}.
Variable R : Type.

Lemma In_proj (i : nat) (a : action) (tr : list event) :
  In a (proj i tr) <-> exists e, In e tr /\ In a (acts_of i e).
Proof. unfold proj. apply in_flat_map. Qed.

Lemma nth_error_set_nth_true (cl : list bool) (ch ch0 : nat) :
  nth_error (set_nth ch0 true cl) ch = Some true ->
  ch = ch0 \/ nth_error cl ch = Some true.
Proof.
  intros H. destruct (Nat.eq_dec ch ch0) as [-> | Hne]; [now left | right].
  rewrite <- (app_nil_r (set_nth ch0 true cl)) in H.
  rewrite nth_error_set_nth_other in H by exact Hne. now rewrite app_nil_r in H.
Qed.

Lemma step_closed (cfg cfg' : config R) (e : event) (ch : nat) :
  step R cfg e cfg' ->
  nth_error (closed R cfg') ch = Some true ->
  nth_error (closed R cfg) ch = Some true \/ exists j, e = Ev j (A_close ch).
Proof.
  intros Hstep. destruct Hstep as [ts cl j t a t' spawn cl' Hj Ht Hsolo
                                  | ts cl s r ts1 ts1' tr1 tr1' ch0 v Hsr Hs Hr Hts Htr Hcl
                                  | ts cl j t a t' Hj Ht Hp ]; simpl closed; auto.
  destruct a; simpl in Hsolo.
  - destruct Hsolo as (_ & ->). auto.
  - destruct Hsolo as (-> & _ & ->). intros H.
    destruct (Nat.lt_ge_cases ch (length cl)) as [Hlt | Hge].
    + rewrite nth_error_app1 in H by exact Hlt. auto.
    + rewrite nth_error_app2 in H by exact Hge.
      destruct (ch - length cl) as [|[|k]]; simpl in H; discriminate.
  - contradiction.
  - destruct Hsolo as (_ & _ & _ & ->). auto.
  - destruct Hsolo as (_ & _ & ->). intros H.
    apply nth_error_set_nth_true in H. destruct H as [-> | H]; eauto.
  - destruct Hsolo as (_ & ->). auto.
Qed.


End ChannelProperties.

Section TerminalCompletion.
Context {imp : Imported}.
Variables (hnd : Handle) (container : string) (args : list string) (file : File).

Local Abbreviation prepared := (prepared hnd container file).
Local Abbreviation started := (started hnd container args file).
Local Abbreviation finishing := (finishing file).
Local Abbreviation restore_answer := (restore_answer file).

Lemma In_firstn {T : Type} (a : T) (n : nat) (l : list T) :
  In a (firstn n l) -> In a l.
Proof.
  revert n. induction l as [|y l IH]; intros n H.
  - now rewrite firstn_nil in H.
  - destruct n as [|n]; [contradiction | ]. simpl in H.
    destruct H as [-> | H]; [now left | right; eapply IH; eassumption].
Qed.




Lemma In_firstn_3 {T : Type} (a x y z : T) (n : nat) :
  In a (firstn n [x; y; z]) -> a <> x -> a <> y ->
  a = z /\ firstn n [x; y; z] = [x; y; z].
Proof.
  destruct n as [|[|[|[|n]]]]; simpl; intuition congruence.
Qed.


End TerminalCompletion.

Section TerminalRelease.
Context {imp : Imported}.
Variables (hnd : Handle) (container : string) (args : list string) (file : File).

Local Abbreviation prepared := (prepared hnd container file).
Local Abbreviation started := (started hnd container args file).
Local Abbreviation restore_answer := (restore_answer file).

Lemma Terminal_at_result (hist : list action) (p : prog error) (r : error) :
  Terminal_at hnd container args file hist p ->
  result p = Some r ->
  Terminal_exit hnd container args file hist r.
Proof.
  intros Hat Hr. destruct Hat; simpl in Hr; congruence.
Qed.

Lemma activity_quiet (attached : File) (errChan i : nat) (hist : list action) (a : action) :
  activity_at hnd container args file attached errChan i hist ->
  In a hist ->
  action_changes_mode a = false /\ action_closes a = false.
Proof.
  intros Hact Hin. destruct Hact; apply In_firstn in Hin; simpl in Hin;
    intuition (subst; reflexivity).
Qed.

Lemma returned_main (cfg : config error) (p : prog error) (r : error) :
  nth_error (threads error cfg) 0 = Some (Main p) ->
  returned error cfg = Some r -> result p = Some r.
Proof.
  unfold returned. destruct (threads error cfg) as [|t ts]; [discriminate | ].
  simpl. intros H. injection H as ->. now destruct p.
Qed.


End TerminalRelease.

Section HandleConnection.
Context {imp : Imported}.

Lemma Terminal_at_closes (hnd : Handle) (container : string) (args : list string)
    (file : File) (hist : list action) (p : prog error) (a : action) :
  Terminal_at hnd container args file hist p ->
  In a hist ->
  action_closes a = true ->
  exists socks attached y,
    a = close_answer attached y /\ In (open_answer socks attached nil) hist.
Proof.
  intros Hat Hin Hc.
  destruct Hat as [hist r Hexit | | | | | | socks attached state ch n p Hn Hp
                  | socks attached state ch v0 | socks attached state ch v0 x ];
    [ destruct Hexit | .. ]; simpl in Hin;
    repeat match goal with
           | H : In _ (firstn _ _) |- _ => apply In_firstn in H; simpl in H
           | H : _ \/ _ |- _ => destruct H as [H | H]
           | H : False |- _ => destruct H
           | H : _ = a |- _ => subst a; simpl in Hc; try discriminate Hc
           end;
    eexists _, _, _; (split; [reflexivity | simpl; auto 10]).
Qed.

(** C9. No method of a handle closes the connection of the handle: in every
    run of every sequence of methods on one handle, no thread ever calls
    [Close] on a connection or opens a new one, and every varlink call is
    made on the context and the connection the handle was built with. In a
    run of [Terminal] the only close is the caller's, on the socket file it
    opened in that call. *)
Theorem handle_connection_never_closed (hnd : Handle) :
  (forall ops tr cfg,
      steps unit (start unit (invoke_all hnd ops)) tr cfg ->
      forall i (X : Type) (c : call X) (x : X),
        In (Ev i (A_call c x)) tr -> on_handle hnd X c)
  /\ (forall container args file tr cfg,
      steps error (start error (Terminal hnd container args file)) tr cfg ->
      forall i a, In (Ev i a) tr -> action_closes a = true ->
        i = 0
        /\ exists socks attached y,
             a = close_answer attached y
             /\ In (open_answer socks attached nil) (proj 0 tr)).
Proof.
  split.
  - intros ops tr cfg Hsteps.
    apply (steps_calls (on_handle hnd) _ _ _ (invoke_all_on_handle hnd ops) Hsteps).
  - intros container args file tr cfg Hsteps i a Hin Hc.
    destruct (Terminal_pool hnd container args file _ _ Hsteps)
      as ((p & Hp0 & Hat) & Hgor).
    assert (Ha : In a (proj i tr)).
    { apply In_proj. exists (Ev i a). split; [exact Hin | ].
      simpl. rewrite Nat.eqb_refl. now left. }
    destruct i as [|i].
    + split; [reflexivity | ]. eapply Terminal_at_closes; eassumption.
    + exfalso. destruct (Hgor (S i) (Nat.neq_succ_0 i))
        as [He | (s' & a' & st' & ch' & rest & _ & Hact)].
      * rewrite He in Ha. contradiction.
      * destruct (activity_quiet _ _ _ _ _ _ _ _ _ Hact Ha) as (_ & Hq). congruence.
Qed.

End HandleConnection.

(** ** Runs in the small world *)

Ltac solo_step :=
  eapply steps_cons;
  [ eapply step_solo;
    [ reflexivity
    | cbn; eexists; split; [ try eexists; split; reflexivity | reflexivity ]
    | cbn; repeat split; reflexivity ]
  | cbn ].

Ltac comm_step :=
  eapply steps_cons;
  [ eapply step_comm;
    [ discriminate
    | reflexivity
    | reflexivity
    | cbn; eexists; split; [ split; reflexivity | reflexivity ]
    | cbn; eexists; split; [ eexists; split; reflexivity | reflexivity ]
    | reflexivity ]
  | cbn ].

Section TerminalDeliveries.
Context {imp : Imported}.
Variables (hnd : Handle) (container : string) (args : list string) (file : File).





End TerminalDeliveries.

Section TerminalProgress.
Context {imp : Imported}.
Variables (hnd : Handle) (container : string) (args : list string) (file : File).


End TerminalProgress.

Section TerminalFirstDelivery.
Context {imp : Imported}.
Variables (hnd : Handle) (container : string) (args : list string) (file : File).


End TerminalFirstDelivery.


Lemma demo_run :
  exists cfg,
    steps error (start error demo_session) demo_trace cfg
    /\ returned error cfg = Some refused
    /\ map (fun t => match t with
                     | Goroutine (Ret _) => true
                     | _ => false
                     end) (threads error cfg)
       = [false; false; false; false; true].
Proof.
  eexists. split.
  - unfold demo_session, demo_trace, start.
    do 12 solo_step. comm_step. do 2 solo_step. apply steps_nil.
  - split; reflexivity.
Qed.

Lemma demo_run_refused :
  exists cfg,
    steps error (start error demo_session) demo_trace_refused cfg
    /\ returned error cfg = Some refused.
Proof.
  eexists. split.
  - unfold demo_session, demo_trace_refused, start. solo_step. apply steps_nil.
  - reflexivity.
Qed.

Lemma demo_calls_run :
  exists cfg,
    steps unit (start unit (invoke_all demo_handle demo_calls)) demo_calls_trace cfg
    /\ returned unit cfg = Some tt.
Proof.
  eexists. split.
  - unfold demo_calls, demo_calls_trace, start. do 2 solo_step. apply steps_nil.
  - reflexivity.
Qed.



(** C9, on two methods called on one handle, and on the session in which
    the caller closes the socket it opened. *)
Lemma handle_connection_never_closed_witness :
  (exists cfg,
      steps unit (start unit (invoke_all demo_handle demo_calls)) demo_calls_trace cfg
      /\ on_handle demo_handle _
           (StartContainer_Call (ctx demo_handle) (conn demo_handle) "3f1c"))
  /\ (exists cfg,
      steps error (start error demo_session) demo_trace cfg
      /\ exists socks attached y,
           close_answer demo_socket nil = close_answer attached y
           /\ In (open_answer socks attached nil) (proj 0 demo_trace)).
Proof.
  split.
  - destruct demo_calls_run as (cfg & Hsteps & _).
    exists cfg. split; [exact Hsteps | ].
    apply (proj1 (handle_connection_never_closed demo_handle) demo_calls
             demo_calls_trace cfg Hsteps 0 _ _ ("3f1c", nil)).
    cbn. auto.
  - destruct demo_run as (cfg & Hsteps & _ & _).
    exists cfg. split; [exact Hsteps | ].
    apply (proj2 (handle_connection_never_closed demo_handle) "node01" ["sh"]
             demo_file demo_trace cfg Hsteps 0 (close_answer demo_socket nil)).
    + cbn. auto 20.
    + reflexivity.
Defined.

(** ** Examples *)

(** [SprintError] on a few values, with the texts of the small world. *)
Example SprintError_missing_image :
  SprintError (rnd := demo_rendering) "PullImage" (ImageNotFound "busybox")
  = Some ("Error calling PullImage: 'io.podman.Error' name='busybox'" ++ nl).
Proof. reflexivity. Qed.

Example SprintError_pod_errors :
  SprintError (rnd := demo_rendering) "StartPod"
    (@PodContainerError demo "web" ["c1: exited"; "c2: oom"])
  = Some ("Error calling StartPod: 'io.podman.Error' podname='web' errors='[c1: exited c2: oom]'"
          ++ nl).
Proof. reflexivity. Qed.

Example SprintError_closed :
  SprintError (rnd := demo_rendering) "ListContainers" io_EOF
  = Some ("Error calling ListContainers: Connection closed" ++ nl).
Proof. reflexivity. Qed.

Example SprintError_local_error :
  SprintError (rnd := demo_rendering) "FindPrefixedContainer"
    (fmt_Errorf "failed to found the container with name pack8s")
  = Some ("Error calling FindPrefixedContainer: *errors.errorString - 'failed to found the container with name pack8s'"
          ++ nl).
Proof. reflexivity. Qed.

Example SprintError_no_error :
  SprintError (rnd := demo_rendering) "Exec" nil
  = Some ("Error calling Exec: <nil> - '<nil>'" ++ nl).
Proof. reflexivity. Qed.

Example HasPrefix_is_case_sensitive :
  HasPrefix "pack8s-node01" "pack8s" = true
  /\ HasPrefix "Pack8s-node01" "pack8s" = false
  /\ HasPrefix "pack" "pack8s" = false.
Proof. repeat split. Qed.

(** Two containers named a and a-1: the prefix a is ambiguous, the prefix
    a-1 finds the second. *)
Example FindPrefixedContainer_ambiguous :
  let world := engine [ {| Id := "1"; Names := "a"; Status := "" |};
                        {| Id := "2"; Names := "a-1"; Status := "" |} ]
                      [] nil 0 in
  option_map (fun x => fst x) (exec world (FindPrefixedContainer demo_handle "a") 0)
  = Some ((Container_zero,
           errorString "failed to found the container with name a"),
          history (exec world (GetPrefixedContainers demo_handle "a") 0))
  /\ option_map (fun x => fst (fst x))
       (exec world (FindPrefixedContainer demo_handle "a-1") 0)
     = Some ({| Id := "2"; Names := "a-1"; Status := "" |}, nil).
Proof. split; reflexivity. Qed.

(** * Further properties of the package *)

(** * More properties of the package *)

Section MoreQueries.
Context {imp : Imported} {rnd : Rendering}.
Variable S : Type.
Variable env : environment S.

Lemma exec_for_range_filter_logs {X : Type} (keep : X -> bool)
    (format : X -> string) (args : X -> list logarg) (xs : list X) :
  forall acc s, exists logs s',
    exec env (for_range xs acc
                (fun x ret => if keep x
                              then perform (log_Printf (format x) (args x)) ;;
                                   Ret (ret ++ [x])%list
                              else Ret ret)) s
    = Some ((acc ++ filter keep xs)%list, logs, s')
    /\ forallb is_log logs = true
    /\ length logs = length (filter keep xs).
Proof.
  induction xs as [|x xs IH]; intros acc s; cbn [for_range filter].
  - exists [], s. simpl. now rewrite app_nil_r.
  - rewrite exec_bind. destruct (keep x).
    + rewrite exec_bind, exec_perform. cbn [exec fst snd].
      destruct (IH (acc ++ [x])%list (snd (env unit (log_Printf (format x) (args x)) s)))
        as (logs & s2 & -> & Hlogs & Hlen).
      eexists _, s2. rewrite <- app_assoc. split; [reflexivity | ].
      simpl. now rewrite Hlogs, Hlen.
    + cbn [exec]. destruct (IH acc s) as (logs & s2 & -> & Hlogs & Hlen).
      now eexists _, _.
Qed.

Lemma exec_for_range_names (hnd : Handle) (volumes : list Volume) :
  forall acc s, exists logs s',
    exec env (for_range volumes acc
                (fun vol volumeNames =>
                   perform (log_Printf "removing volume %s @%s"
                              [a_string (Name vol); a_string (MountPoint vol)]) ;;
                   Ret (volumeNames ++ [Name vol])%list)) s
    = Some ((acc ++ map Name volumes)%list, logs, s')
    /\ forallb is_log logs = true
    /\ length logs = length volumes.
Proof.
  induction volumes as [|vol volumes IH]; intros acc s; cbn [for_range map].
  - exists [], s. simpl. now rewrite app_nil_r.
  - rewrite exec_bind, exec_bind, exec_perform. cbn [exec fst snd].
    destruct (IH (acc ++ [Name vol])%list
                 (snd (env unit (log_Printf "removing volume %s @%s"
                                   [a_string (Name vol); a_string (MountPoint vol)]) s)))
      as (logs & s2 & -> & Hlogs & Hlen).
    eexists _, s2. rewrite <- app_assoc. split; [reflexivity | ].
    simpl. now rewrite Hlogs, Hlen.
Qed.

(** X1. [RemoveVolumes] writes one log line per volume and then makes one
    call, whatever the list: the removal of the names of the volumes, in
    the order given, forced; its result is the error of that call. *)
Theorem RemoveVolumes_one_forced_batch (hnd : Handle) (volumes : list Volume) (s : S) :
  exists logs answer s',
    exec env (RemoveVolumes hnd volumes) s
    = Some (snd answer,
            (logs ++ [A_call (VolumeRemove_Call (ctx hnd) (conn hnd)
                                {| Volumes := map Name volumes; Force := true |})
                             answer])%list,
            s')
    /\ forallb is_log logs = true
    /\ length logs = length volumes.
Proof.
  unfold RemoveVolumes. rewrite exec_bind.
  destruct (exec_for_range_names hnd volumes [] s) as (logs & s1 & -> & Hlogs & Hlen).
  rewrite exec_bind, exec_perform. simpl app.
  destruct (env _ (VolumeRemove_Call (ctx hnd) (conn hnd)
                     {| Volumes := map Name volumes; Force := true |}) s1)
    as [[[removed failed] err] s2] eqn:E.
  simpl. exists logs, (removed, failed, err), s2.
  now split.
Qed.


Lemma round_trips_logs (logs : list action) :
  forallb is_log logs = true -> round_trips logs = [].
Proof.
  induction logs as [|a logs IH]; simpl; [reflexivity | ].
  rewrite andb_true_iff. intros [Ha Hl]. rewrite Ha. simpl. now apply IH.
Qed.

Lemma exec_GetPrefixedContainers_history (hnd : Handle) (prefix : string) (s : S) :
  exists logs s',
    exec env (GetPrefixedContainers hnd prefix) s
    = Some (let (containers, err) := fst (env _ (ListContainers_Call (ctx hnd) (conn hnd)) s) in
            if is_nil err
            then (filter (fun cont => HasPrefix (Names cont) prefix) containers, nil)
            else ([], err),
            A_call (ListContainers_Call (ctx hnd) (conn hnd))
                   (fst (env _ (ListContainers_Call (ctx hnd) (conn hnd)) s)) :: logs,
            s')
    /\ forallb is_log logs = true.
Proof.
  unfold GetPrefixedContainers. rewrite exec_bind, exec_perform.
  destruct (env _ (ListContainers_Call (ctx hnd) (conn hnd)) s) as [[containers err] s1].
  cbn [fst snd]; cbv beta iota.
  destruct (is_nil err) eqn:Herr; cbn [negb]; cbv iota.
  - rewrite exec_bind, exec_perform. rewrite exec_bind.
    destruct (exec_for_range_filter_logs
                (fun cont => HasPrefix (Names cont) prefix)
                (fun _ => "matching container: %s (%s)" ++ nl)
                (fun cont => [a_string (Names cont); a_string (Id cont)])
                containers []
                (snd (env _ (log_Printf "found %d containers in the system"
                               [a_int (length containers)]) s1)))
      as (logs & s2 & Hloop & Hlogs & _).
    rewrite Hloop. rewrite exec_bind, exec_perform. cbn [exec fst snd app].
    eexists _, _. split; [reflexivity | ].
    cbn [forallb is_log]. rewrite forallb_app, Hlogs. reflexivity.
  - cbn [exec app]. now eexists _, _.
Qed.

Lemma exec_GetPrefixedVolumes_history (hnd : Handle) (prefix : string) (s : S) :
  exists logs s',
    exec env (GetPrefixedVolumes hnd prefix) s
    = Some (let (volumes, err) := fst (env _ (GetVolumes_Call (ctx hnd) (conn hnd) [] true) s) in
            if is_nil err
            then (filter (fun vol => HasPrefix (Name vol) prefix) volumes, nil)
            else ([], err),
            A_call (GetVolumes_Call (ctx hnd) (conn hnd) [] true)
                   (fst (env _ (GetVolumes_Call (ctx hnd) (conn hnd) [] true) s)) :: logs,
            s')
    /\ forallb is_log logs = true.
Proof.
  unfold GetPrefixedVolumes. rewrite exec_bind, exec_perform.
  destruct (env _ (GetVolumes_Call (ctx hnd) (conn hnd) [] true) s) as [[volumes err] s1].
  cbn [fst snd]; cbv beta iota.
  destruct (is_nil err) eqn:Herr; cbn [negb]; cbv iota.
  - rewrite exec_bind, exec_perform. rewrite exec_bind.
    destruct (exec_for_range_filter_logs
                (fun vol => HasPrefix (Name vol) prefix)
                (fun _ => "matching volume: %s @(%s)" ++ nl)
                (fun vol => [a_string (Name vol); a_string (MountPoint vol)])
                volumes []
                (snd (env _ (log_Printf "found %d volumess in the system"
                               [a_int (length volumes)]) s1)))
      as (logs & s2 & Hloop & Hlogs & _).
    rewrite Hloop. rewrite exec_bind, exec_perform. cbn [exec fst snd app].
    apply is_nil_true in Herr. subst err.
    eexists _, _. split; [reflexivity | ].
    cbn [forallb is_log]. rewrite forallb_app, Hlogs. reflexivity.
  - cbn [exec app]. now eexists _, _.
Qed.

(** X2. The prefix queries are one round trip: whatever the engine answers,
    [GetPrefixedContainers] makes the list call once, [GetPrefixedVolumes]
    the volume list call once with no filter and [all] set, and everything
    else either of them does is a log line; [FindPrefixedContainer] makes
    the calls of [GetPrefixedContainers] and no other. *)
Theorem prefixed_queries_one_round_trip (hnd : Handle) (prefix : string) (s : S) :
  (exists answer,
      round_trips (history (exec env (GetPrefixedContainers hnd prefix) s))
      = [A_call (ListContainers_Call (ctx hnd) (conn hnd)) answer])
  /\ (exists answer,
      round_trips (history (exec env (GetPrefixedVolumes hnd prefix) s))
      = [A_call (GetVolumes_Call (ctx hnd) (conn hnd) [] true) answer])
  /\ history (exec env (FindPrefixedContainer hnd prefix) s)
     = history (exec env (GetPrefixedContainers hnd prefix) s).
Proof.
  split; [ | split].
  - destruct (exec_GetPrefixedContainers_history hnd prefix s) as (logs & s' & -> & Hlogs).
    eexists. simpl. now rewrite (round_trips_logs _ Hlogs).
  - destruct (exec_GetPrefixedVolumes_history hnd prefix s) as (logs & s' & -> & Hlogs).
    eexists. simpl. now rewrite (round_trips_logs _ Hlogs).
  - destruct (exec_GetPrefixedContainers_history hnd prefix s) as (logs & s' & E & _).
    match type of E with _ = Some (?r, _, _) => destruct r as [cs e] end.
    rewrite (exec_FindPrefixedContainer _ _ _ _ _ _ _ _ _ E), E. reflexivity.
Qed.

Lemma filter_singleton {X : Type} (keep : X -> bool) (xs : list X) (x : X) :
  filter keep xs = [x] ->
  In x xs /\ keep x = true /\ forall y, In y xs -> keep y = true -> y = x.
Proof.
  intros H.
  assert (Hx : In x (filter keep xs)) by (rewrite H; now left).
  apply filter_In in Hx. destruct Hx as [Hin Hk]. repeat split; auto.
  intros y Hy Hky.
  assert (Hy' : In y (filter keep xs)) by (apply filter_In; now split).
  rewrite H in Hy'. destruct Hy' as [<- | []]. reflexivity.
Qed.

(** X3. [FindPrefixedContainer] in terms of what the engine lists: with a
    nil error from the engine, a nil error of the function comes with a
    container of the listing whose name starts with the prefix and that is
    the only such element of the listing; any other number of matching
    elements gives the zero container; and exactly one matching element
    always gives that element. *)
Theorem FindPrefixedContainer_on_listing (hnd : Handle) (prefixedName : string)
    (s s1 : S) (containers : list Container) :
  env _ (ListContainers_Call (ctx hnd) (conn hnd)) s = ((containers, nil), s1) ->
  exists cont err hist s',
    exec env (FindPrefixedContainer hnd prefixedName) s = Some ((cont, err), hist, s')
    /\ (err = nil ->
        In cont containers
        /\ HasPrefix (Names cont) prefixedName = true
        /\ forall c, In c containers -> HasPrefix (Names c) prefixedName = true ->
                     c = cont)
    /\ (err <> nil ->
        cont = Container_zero
        /\ length (filter (fun c => HasPrefix (Names c) prefixedName) containers) <> 1)
    /\ (forall only,
          filter (fun c => HasPrefix (Names c) prefixedName) containers = [only] ->
          cont = only /\ err = nil).
Proof.
  intros Hlist.
  destruct (exec_GetPrefixedContainers_history hnd prefixedName s) as (logs & s' & E & _).
  rewrite Hlist in E. cbn [fst is_nil] in E. cbv iota in E.
  rewrite (exec_FindPrefixedContainer _ _ _ _ _ _ _ _ _ E). cbn [is_nil]. cbv iota.
  set (matching := filter (fun c => HasPrefix (Names c) prefixedName) containers) in *.
  destruct (Nat.eqb (length matching) 1) eqn:Hlen.
  - apply Nat.eqb_eq in Hlen.
    destruct matching as [|only [|c2 rest]] eqn:Hm; try discriminate.
    eexists _, _, _, _. split; [reflexivity | ]. cbn [nth].
    split; [ | split].
    + intros _. exact (filter_singleton _ _ _ Hm).
    + congruence.
    + intros only' H. injection H as <-. now split.
  - apply Nat.eqb_neq in Hlen.
    eexists _, _, _, _. split; [reflexivity | ].
    split; [ | split].
    + discriminate.
    + intros _. now split.
    + intros only H. rewrite H in Hlen. simpl in Hlen. congruence.
Qed.

Lemma filter_all {X : Type} (keep : X -> bool) (xs : list X) :
  (forall x, keep x = true) -> filter keep xs = xs.
Proof.
  intros H. induction xs as [|x xs IH]; simpl; [reflexivity | ].
  now rewrite H, IH.
Qed.

Lemma HasPrefix_empty (s0 : string) : HasPrefix s0 "" = true.
Proof. apply HasPrefix_spec. now exists s0. Qed.

(** X4. The empty prefix selects everything: with a nil error from the
    engine, [GetPrefixedContainers] and [GetPrefixedVolumes] called with the
    empty string return the whole listing as it is. *)
Theorem empty_prefix_selects_everything (hnd : Handle) (s : S) :
  (forall containers s1,
      env _ (ListContainers_Call (ctx hnd) (conn hnd)) s = ((containers, nil), s1) ->
      exists hist s',
        exec env (GetPrefixedContainers hnd "") s = Some ((containers, nil), hist, s'))
  /\ (forall volumes s1,
      env _ (GetVolumes_Call (ctx hnd) (conn hnd) [] true) s = ((volumes, nil), s1) ->
      exists hist s',
        exec env (GetPrefixedVolumes hnd "") s = Some ((volumes, nil), hist, s')).
Proof.
  split.
  - intros containers s1 H.
    destruct (exec_GetPrefixedContainers_history hnd "" s) as (logs & s' & E & _).
    rewrite H in E. cbn [fst is_nil] in E. cbv iota in E.
    rewrite filter_all in E by (intros; apply HasPrefix_empty). eauto.
  - intros volumes s1 H.
    destruct (exec_GetPrefixedVolumes_history hnd "" s) as (logs & s' & E & _).
    rewrite H in E. cbn [fst is_nil] in E. cbv iota in E.
    rewrite filter_all in E by (intros; apply HasPrefix_empty). eauto.
Qed.

Lemma HasPrefix_shorter (s0 p r : string) :
  HasPrefix s0 (p ++ r) = true -> HasPrefix s0 p = true.
Proof.
  rewrite !HasPrefix_spec. intros [t ->]. exists (r ++ t). apply append_assoc.
Qed.

Lemma filter_filter_narrow {X : Type} (wide narrow : X -> bool) (xs : list X) :
  (forall x, narrow x = true -> wide x = true) ->
  filter narrow (filter wide xs) = filter narrow xs.
Proof.
  intros H. induction xs as [|x xs IH]; simpl; [reflexivity | ].
  destruct (wide x) eqn:Hw; simpl.
  - now rewrite IH.
  - destruct (narrow x) eqn:Hn; [ | exact IH].
    apply H in Hn. congruence.
Qed.

(** X5. Lengthening the prefix narrows the answer: on one listing, what
    [GetPrefixedContainers] returns for a prefix followed by more bytes is
    what remains of its result for the prefix alone after filtering by the
    longer prefix. *)
Theorem longer_prefix_narrows (hnd : Handle) (prefix more : string) (s s1 : S)
    (containers : list Container) :
  env _ (ListContainers_Call (ctx hnd) (conn hnd)) s = ((containers, nil), s1) ->
  exists short long hist1 hist2 s' s'',
    exec env (GetPrefixedContainers hnd prefix) s = Some ((short, nil), hist1, s')
    /\ exec env (GetPrefixedContainers hnd (prefix ++ more)) s
       = Some ((long, nil), hist2, s'')
    /\ long = filter (fun cont => HasPrefix (Names cont) (prefix ++ more)) short
    /\ forall cont, In cont long -> In cont short.
Proof.
  intros H.
  destruct (exec_GetPrefixedContainers_history hnd prefix s) as (l1 & s' & E1 & _).
  destruct (exec_GetPrefixedContainers_history hnd (prefix ++ more) s) as (l2 & s'' & E2 & _).
  rewrite H in E1, E2. cbn [fst is_nil] in E1, E2. cbv iota in E1, E2.
  eexists _, _, _, _, _, _. split; [exact E1 | split; [exact E2 | ]].
  assert (Hn : filter (fun cont => HasPrefix (Names cont) (prefix ++ more)) containers
               = filter (fun cont => HasPrefix (Names cont) (prefix ++ more))
                   (filter (fun cont => HasPrefix (Names cont) prefix) containers)).
  { symmetry. apply filter_filter_narrow. intros x. apply HasPrefix_shorter. }
  split; [exact Hn | ].
  intros cont Hin. rewrite Hn in Hin. apply filter_In in Hin. tauto.
Qed.

(** X6. A container named exactly like the prefix does not win: when the
    listing has it and, before or after it, another container whose name
    starts with the prefix, [FindPrefixedContainer] returns the zero
    container and its own error. *)
Theorem exact_name_is_not_preferred (hnd : Handle) (prefixedName : string)
    (s s1 : S) (before between after : list Container) (exact other : Container) :
  Names exact = prefixedName ->
  HasPrefix (Names other) prefixedName = true ->
  (env _ (ListContainers_Call (ctx hnd) (conn hnd)) s
   = (((before ++ exact :: between ++ other :: after)%list, nil), s1)
   \/ env _ (ListContainers_Call (ctx hnd) (conn hnd)) s
      = (((before ++ other :: between ++ exact :: after)%list, nil), s1)) ->
  exists hist s',
    exec env (FindPrefixedContainer hnd prefixedName) s
    = Some ((Container_zero,
             fmt_Errorf ("failed to found the container with name " ++ prefixedName)),
            hist, s')
    /\ fmt_Errorf ("failed to found the container with name " ++ prefixedName) <> nil
    /\ fmt_v (fmt_Errorf ("failed to found the container with name " ++ prefixedName))
       = "failed to found the container with name " ++ prefixedName.
Proof.
  intros Hexact Hother Hlist.
  assert (Hself : HasPrefix (Names exact) prefixedName = true).
  { rewrite Hexact. apply HasPrefix_spec. exists "". now rewrite append_nil_r. }
  destruct (exec_GetPrefixedContainers_history hnd prefixedName s) as (logs & s' & E & _).
  assert (Hlen : forall x y,
             HasPrefix (Names x) prefixedName = true ->
             HasPrefix (Names y) prefixedName = true ->
             Nat.eqb (length (filter (fun c => HasPrefix (Names c) prefixedName)
                                (before ++ x :: between ++ y :: after))) 1 = false).
  { intros x y Hx Hy. apply Nat.eqb_neq.
    rewrite filter_app. simpl. rewrite Hx, filter_app. simpl. rewrite Hy.
    rewrite length_app. simpl. rewrite length_app. simpl. lia. }
  destruct Hlist as [Hlist | Hlist]; rewrite Hlist in E; cbn [fst is_nil] in E;
    cbv iota in E;
    rewrite (exec_FindPrefixedContainer _ _ _ _ _ _ _ _ _ E); cbn [is_nil]; cbv iota;
    rewrite Hlen by assumption;
    (eexists _, _; split; [reflexivity | split; [discriminate | reflexivity]]).
Qed.

End MoreQueries.

Section MorePull.
Context {imp : Imported}.
Variable S : Type.
Variable env : environment S.

Ltac answered x s :=
  match goal with
  | |- context [env ?X ?c ?s0] => destruct (env X c s0) as [x s]
  end.

Ltac pulled :=
  eexists _, _, _; split; [reflexivity | ]; cbn;
  repeat match goal with
         | H : is_nil _ = false |- _ => rewrite H; clear H
         end;
  cbn; repeat split; try lia; repeat constructor.

(** X7. Whatever the engine answers, every attempt of [PullImage] is the
    same pull, of the reference given on the context and connection of the
    handle, each after one sleep; the error of every failed attempt is
    written to the log, once and in order, and nothing else is; and the
    sleeps add up to at most nine seconds. *)
Theorem PullImage_attempts_and_log (hnd : Handle) (ref : string) (out : Writer) (s : S) :
  exists err hist s',
    exec env (PullImage hnd ref out) s = Some (err, hist, s')
    /\ Forall (fun p => fst p = (ctx hnd, conn hnd, ref)) (pulls hist)
    /\ logged_errors hist
       = filter (fun e => negb (is_nil e)) (map snd (pulls hist))
    /\ length (sleeps hist) = length (pulls hist)
    /\ list_sum (sleeps hist) <= 9.
Proof.
  unfold PullImage, tries. cbn -[append].
  answered u1 s1. answered u2 s2. answered r1 s3. destruct r1 as [id1 e1].
  destruct (is_nil e1) eqn:H1; cbn -[append].
  { apply is_nil_true in H1. subst e1. pulled. }
  answered u3 s4. answered u4 s5. answered u5 s6. answered r2 s7. destruct r2 as [id2 e2].
  destruct (is_nil e2) eqn:H2; cbn -[append].
  { apply is_nil_true in H2. subst e2. pulled. }
  answered u6 s8. answered u7 s9. answered u8 s10. answered r3 s11. destruct r3 as [id3 e3].
  destruct (is_nil e3) eqn:H3; cbn -[append].
  { apply is_nil_true in H3. subst e3. pulled. }
  answered u9 s12. answered u10 s13. answered u11 s14. answered r4 s15.
  destruct r4 as [id4 e4].
  destruct (is_nil e4) eqn:H4; cbn -[append].
  { apply is_nil_true in H4. subst e4. pulled. }
  answered u12 s16. pulled.
Qed.

End MorePull.

Section MoreSprintError.
Context {imp : Imported} {rnd : Rendering}.

(** X8. Whenever [SprintError] returns, its message is the header naming the
    method followed by a text that ends with a line feed; and it returns on
    every error but a nil pointer of a type of the switch whose field it
    reads. *)
Theorem SprintError_header_and_line_feed (methodname : string) (err : error) :
  match SprintError methodname err with
  | Some out =>
      exists rest, out = "Error calling " ++ methodname ++ ": " ++ rest ++ nl
  | None => exists t, err = nil_pointer t /\ t <> p_NoContainerRunning
  end.
Proof.
  destruct (reads_nil_pointer err) eqn:Hread.
  - rewrite (proj2 (SprintError_panics methodname err) Hread).
    destruct err as [ | | | | | | | | | | | | | | t | | | | ]; try discriminate Hread.
    exists t. split; [reflexivity | ]. intros ->. discriminate Hread.
  - destruct (SprintError_returns methodname err Hread) as (rest & ->).
    now exists rest.
Qed.

End MoreSprintError.

Section MoreTerminal.
Context {imp : Imported}.
Variables (hnd : Handle) (container : string) (args : list string) (file : File).

Local Abbreviation prepared := (prepared hnd container file).
Local Abbreviation started := (started hnd container args file).

(** What the caller does inside [Terminal] is a call, the making of the
    channel, the start of a goroutine or a receive; it receives at most
    once and never calls exec itself. *)
Lemma Terminal_at_actions (hist : list action) (p : prog error) :
  Terminal_at hnd container args file hist p ->
  (forall a, In a hist ->
     match a with
     | A_send _ _ | A_close _ => False
     | _ => True
     end /\ exec_opts_of a = None)
  /\ length (filter is_recv hist) <= 1.
Proof.
  intros Hat.
  destruct Hat as [hist r Hexit | | | | | | socks attached state ch n p Hn Hp
                  | socks attached state ch v0 | socks attached state ch v0 x ];
    [ destruct Hexit | .. ].
  all: split;
    [ intros a Hin;
      repeat (apply in_app_or in Hin; destruct Hin as [Hin | Hin]);
      try apply In_firstn in Hin; simpl in Hin; intuition (subst; simpl; auto)
    | try (do 6 (destruct n as [|n]; [simpl; lia | ]); lia); simpl; lia ].
Qed.

Lemma Terminal_at_before_raw (hist : list action) (p : prog error) :
  Terminal_at hnd container args file hist p ->
  existsb raw_established hist = false ->
  gos error hist = []
  /\ forall a, In a hist -> exists (X : Type) (c : call X) (x : X), a = A_call c x.
Proof.
  intros Hat Hraw.
  destruct Hat as [hist r Hexit | | | | | | socks attached state ch n p Hn Hp
                  | socks attached state ch v0 | socks attached state ch v0 x ];
    [ destruct Hexit | .. ];
    try (simpl in Hraw; discriminate Hraw);
    (split; [reflexivity | intros a Hin; simpl in Hin;
                          intuition (subst; eexists _, _, _; reflexivity)]).
Qed.

(** X9. Before raw mode is established [Terminal] starts nothing: in a run
    in which [terminal.MakeRaw] has not succeeded, the caller is the only
    thread, every action of the run is a call made by the caller, and no
    value has passed from a sender to a receiver. *)
Theorem Terminal_starts_nothing_before_raw_mode (tr : list event) (cfg : config error) :
  steps error (start error (Terminal hnd container args file)) tr cfg ->
  existsb raw_established (proj 0 tr) = false ->
  length (threads error cfg) = 1
  /\ (forall i a, In (Ev i a) tr ->
        i = 0 /\ exists (X : Type) (c : call X) (x : X), a = A_call c x)
  /\ (forall s r ch v, ~ In (Ev_comm s r ch v) tr).
Proof.
  intros Hsteps Hraw.
  destruct (Terminal_pool hnd container args file _ _ Hsteps) as ((p & Hp0 & Hat) & _).
  destruct (Terminal_at_before_raw _ _ Hat Hraw) as (Hgos & Hcalls).
  destruct (steps_threads _ _ _ _ Hsteps) as (Hlen & Hth).
  rewrite (steps_spawned _ _ _ (Terminal_go_flat hnd container args file) Hsteps),
    Hgos in Hlen. simpl in Hlen.
  assert (Hidle : forall i, i <> 0 -> proj i tr = []).
  { intros i Hi. specialize (Hth i).
    destruct (nth_error (threads error cfg) i) eqn:E; [ | exact Hth].
    assert (i < length (threads error cfg)) by (apply nth_error_Some; congruence).
    lia. }
  split; [exact Hlen | split].
  - intros i a Hin.
    assert (Ha : In a (proj i tr)).
    { apply In_proj. exists (Ev i a). split; [exact Hin | ].
      simpl. rewrite Nat.eqb_refl. now left. }
    destruct i as [|i]; [split; [reflexivity | now apply Hcalls] | ].
    rewrite Hidle in Ha by discriminate. contradiction.
  - intros s r ch v Hin.
    assert (Ha : In (A_send ch v) (proj s tr)).
    { apply In_proj. exists (Ev_comm s r ch v). split; [exact Hin | ].
      simpl. rewrite Nat.eqb_refl. now left. }
    destruct s as [|s].
    + destruct (Hcalls _ Ha) as (X & c & x & H). discriminate.
    + rewrite Hidle in Ha by discriminate. contradiction.
Qed.

(** X10. There is no way out of the streaming phase but a completion: when
    [Terminal] returns after raw mode was established, the result was
    received from the channel, handed over by a goroutine or read as the
    zero value of the closed channel. *)
Theorem Terminal_returns_only_on_completion (tr : list event) (cfg : config error)
    (r : error) :
  steps error (start error (Terminal hnd container args file)) tr cfg ->
  returned error cfg = Some r ->
  existsb raw_established (proj 0 tr) = true ->
  exists errChan,
    In (A_recv errChan r) (proj 0 tr)
    /\ (In (Ev 0 (A_recv errChan r)) tr \/ exists s, In (Ev_comm s 0 errChan r) tr).
Proof.
  intros Hsteps Hret Hraw.
  destruct (Terminal_pool hnd container args file _ _ Hsteps) as ((p & Hp0 & Hat) & _).
  pose proof (Terminal_at_result _ _ _ _ _ _ _ Hat (returned_main _ _ _ Hp0 Hret)) as Hexit.
  remember (proj 0 tr) as hist eqn:Hhist.
  destruct Hexit as [err Herr | socks err Herr | socks attached err Herr
                    | socks attached state err x Herr
                    | socks attached state errChan v x y];
    try (simpl in Hraw; try rewrite Herr in Hraw; discriminate Hraw).
  assert (Hin : In (A_recv errChan v) (proj 0 tr)).
  { rewrite <- Hhist. simpl. auto 20. }
  rewrite Hhist.
  exists errChan. split; [exact Hin | ].
  apply In_proj in Hin. destruct Hin as (e & He & Ha).
  destruct e as [i a | s r0 ch w | i a]; simpl in Ha.
  - destruct i as [|i]; simpl in Ha; [ | contradiction].
    destruct Ha as [-> | []]. now left.
  - right. exists s.
    assert (r0 = 0 /\ ch = errChan /\ w = v) as (-> & -> & ->).
    { destruct s, r0; simpl in Ha; intuition (try discriminate); congruence. }
    exact He.
  - contradiction.
Qed.

Lemma comm_count (tr : list event) :
  (forall s r ch v, In (Ev_comm s r ch v) tr -> r = 0) ->
  length (filter is_comm tr) <= length (filter is_recv (proj 0 tr)).
Proof.
  induction tr as [|e tr IH]; intros H; [simpl; lia | ].
  assert (IH' := IH (fun s r ch v Hin => H s r ch v (or_intror Hin))).
  simpl proj. rewrite filter_app, length_app.
  destruct e as [i a | s r ch v | i a]; simpl filter; try lia.
  rewrite (H s r ch v (or_introl eq_refl)). simpl acts_of.
  rewrite filter_app, length_app. simpl. lia.
Qed.

(** X11. At most one value ever passes through the completion channel: in
    every run of [Terminal] there is at most one handover from a sender to
    a receiver, so what the other goroutines have to report is never
    read. *)
Theorem Terminal_hands_over_at_most_once (tr : list event) (cfg : config error) :
  steps error (start error (Terminal hnd container args file)) tr cfg ->
  length (filter is_comm tr) <= 1.
Proof.
  intros Hsteps.
  destruct (Terminal_pool hnd container args file _ _ Hsteps) as ((p & Hp0 & Hat) & Hgor).
  destruct (Terminal_at_actions _ _ Hat) as (_ & Hone).
  assert (Hrecv : forall s r ch v, In (Ev_comm s r ch v) tr -> r = 0).
  { intros s r ch v Hin. destruct r as [|r]; [reflexivity | exfalso].
    assert (Ha : In (A_recv ch v) (proj (S r) tr)).
    { apply In_proj. exists (Ev_comm s (S r) ch v). split; [exact Hin | ].
      simpl. rewrite Nat.eqb_refl. apply in_or_app. right. now left. }
    destruct (Hgor (S r) (Nat.neq_succ_0 r))
      as [He | (s' & a' & st' & ch' & rest & _ & Hact)].
    - rewrite He in Ha. contradiction.
    - destruct Hact; apply In_firstn in Ha; simpl in Ha; intuition discriminate. }
  pose proof (comm_count tr Hrecv). lia.
Qed.

(** X12. The exec call of [Terminal] is made by the fourth goroutine only,
    for the container and the command given, privileged, and with the TTY
    flag that [terminal.IsTerminal] answered, in that goroutine, for the
    descriptor of the caller's file. *)
Theorem Terminal_exec_options (tr : list event) (cfg : config error)
    (i : nat) (a : action) (opts : ExecOpts) :
  steps error (start error (Terminal hnd container args file)) tr cfg ->
  In (Ev i a) tr ->
  exec_opts_of a = Some opts ->
  i = 4
  /\ opts = {| exec_Name := container; exec_Tty := exec_Tty opts;
               exec_Privileged := true; exec_Cmd := args |}
  /\ In (Ev 4 (A_call (terminal_IsTerminal (Fd file)) (exec_Tty opts))) tr.
Proof.
  intros Hsteps Hin Hopts.
  destruct (Terminal_pool hnd container args file _ _ Hsteps) as ((p & Hp0 & Hat) & Hgor).
  assert (Ha : In a (proj i tr)).
  { apply In_proj. exists (Ev i a). split; [exact Hin | ].
    simpl. rewrite Nat.eqb_refl. now left. }
  destruct i as [|i].
  { destruct (Terminal_at_actions _ _ Hat) as (Hmain & _).
    destruct (Hmain _ Ha) as (_ & Hnone). congruence. }
  destruct (Hgor (S i) (Nat.neq_succ_0 i))
    as [He | (s' & a' & st' & ch' & rest & _ & Hact)].
  { rewrite He in Ha. contradiction. }
  inversion Hact as [k Hk Hh | k wr en Hk Hh | k wr en Hk Hh | k tty err Hk Hh];
    subst i; rewrite <- Hh in Ha.
  - apply In_firstn in Ha. simpl in Ha.
    intuition (subst a; simpl in Hopts; discriminate).
  - apply In_firstn in Ha. simpl in Ha.
    intuition (subst a; simpl in Hopts; discriminate).
  - apply In_firstn in Ha. simpl in Ha.
    intuition (subst a; simpl in Hopts; discriminate).
  - assert (Hk2 : a = A_call (ExecContainer_Call (ctx hnd) (conn hnd)
                                {| exec_Name := container; exec_Tty := tty;
                                   exec_Privileged := true; exec_Cmd := args |}) err
                  /\ 2 <= k).
    { destruct k as [|[|k]]; simpl in Ha.
      - contradiction.
      - destruct Ha as [<- | []]. simpl in Hopts. discriminate.
      - split; [ | lia].
        destruct Ha as [<- | Ha]; [simpl in Hopts; discriminate | ].
        destruct Ha as [<- | Ha]; [reflexivity | ].
        destruct k; simpl in Ha; [contradiction | ].
        destruct Ha as [<- | Ha]; [simpl in Hopts; discriminate | ].
        destruct k; simpl in Ha; contradiction. }
    destruct Hk2 as (-> & Hk2). simpl in Hopts. injection Hopts as <-.
    split; [reflexivity | split; [reflexivity | ]]. simpl exec_Tty.
    assert (Hfirst : In (A_call (terminal_IsTerminal (Fd file)) tty) (proj 4 tr)).
    { rewrite <- Hh. destruct k as [|k]; [lia | ]. simpl. now left. }
    apply In_proj in Hfirst. destruct Hfirst as (e & He & Hacts).
    destruct e as [j b | s r ch v | j b]; unfold acts_of in Hacts.
    + destruct j as [|[|[|[|[|j]]]]]; simpl in Hacts; try contradiction.
      destruct Hacts as [-> | []]. exact He.
    + apply in_app_or in Hacts.
      destruct Hacts as [Hs | Hr].
      * destruct (Nat.eqb 4 s); simpl in Hs;
          [destruct Hs as [Hs | []]; discriminate Hs | contradiction].
      * destruct (Nat.eqb 4 r); simpl in Hr;
          [destruct Hr as [Hr | []]; discriminate Hr | contradiction].
    + contradiction.
Qed.

(** A close of a channel is the last step of the interrupt listener. *)
Lemma Terminal_close_in_proj (tr : list event) (cfg : config error) (j ch : nat) :
  steps error (start error (Terminal hnd container args file)) tr cfg ->
  In (A_close ch) (proj j tr) ->
  j = 1 /\ proj 1 tr = interrupt_history ch.
Proof.
  intros Hsteps Ha.
  destruct (Terminal_pool hnd container args file _ _ Hsteps) as ((p & Hp0 & Hat) & Hgor).
  destruct j as [|j].
  { destruct (Terminal_at_actions _ _ Hat) as (Hmain & _).
    destruct (Hmain _ Ha) as ([] & _). }
  destruct (Hgor (S j) (Nat.neq_succ_0 j))
    as [He | (s' & a' & st' & ch' & rest & _ & Hact)].
  { rewrite He in Ha. contradiction. }
  inversion Hact as [k Hk Hh | k wr en Hk Hh | k wr en Hk Hh | k tty err Hk Hh];
    subst j; rewrite <- Hh in Ha.
  - apply In_firstn_3 in Ha; try discriminate. destruct Ha as (Hc & Hfull).
    injection Hc as ->. split; [reflexivity | exact Hfull].
  - apply In_firstn in Ha. simpl in Ha. intuition discriminate.
  - apply In_firstn in Ha. simpl in Ha. intuition discriminate.
  - apply In_firstn in Ha. simpl in Ha. intuition discriminate.
Qed.

(** X13. Only the interrupt listener closes the completion channel, and only
    after the signal: a close of a channel in a run of [Terminal] is the
    last step of the first goroutine, which has subscribed and received
    the signal before. *)
Theorem Terminal_channel_closed_by_listener (tr : list event) (cfg : config error)
    (j ch : nat) :
  steps error (start error (Terminal hnd container args file)) tr cfg ->
  In (Ev j (A_close ch)) tr ->
  j = 1
  /\ proj 1 tr = [A_call signal_Notify tt; A_call signal_receive tt; A_close ch].
Proof.
  intros Hsteps Hin.
  apply (Terminal_close_in_proj tr cfg j ch Hsteps).
  apply In_proj. exists (Ev j (A_close ch)). split; [exact Hin | ].
  simpl. rewrite Nat.eqb_refl. now left.
Qed.

End MoreTerminal.

Section LateCopy.
Context {imp : Imported}.
Variables (hnd : Handle) (container : string) (args : list string) (file : File).

Lemma steps_app {R : Type} (cfg cfg1 cfg2 : config R) (tr1 tr2 : list event) :
  steps R cfg tr1 cfg1 -> steps R cfg1 tr2 cfg2 -> steps R cfg (tr1 ++ tr2) cfg2.
Proof.
  induction 1 as [cfg | cfg e cfg' tr cfg'' Hstep Hsteps IH]; intros H2; simpl.
  - exact H2.
  - eapply steps_cons; [exact Hstep | now apply IH].
Qed.

Lemma interrupted_run (socks : Sockets) (attached : File) (state : State)
    (written : nat) (ended : copy_end) :
  exists cfg1 cfg2,
    steps error (start error (Terminal hnd container args file))
          (interrupted hnd container args file socks attached state) cfg1
    /\ returned error cfg1 = Some nil
    /\ steps error cfg1 (late_copy file attached written ended) cfg2
    /\ crashed error cfg2 = true.
Proof.
  eexists _, _. split; [ | split; [ | split]].
  - unfold interrupted, prepared, started, activities, start. cbn [map app].
    do 15 solo_step. apply steps_nil.
  - reflexivity.
  - unfold late_copy. solo_step.
    eapply steps_cons; [ | apply steps_nil].
    eapply step_panic;
      [ reflexivity
      | cbn; eexists; split; [split; reflexivity | reflexivity]
      | reflexivity ].
  - reflexivity.
Qed.

(** X14. A copy that ends after the interrupt brings the process down: for
    every session there is a run in which everything succeeds, the signal
    arrives, [Terminal] returns nil after restoring the mode and closing the
    socket, and then the copy from the socket to the terminal ends and its
    goroutine, sending on the channel the listener has closed, panics. *)
Theorem Terminal_late_copy_panics (socks : Sockets) (attached : File) (state : State)
    (written : nat) (ended : copy_end) :
  exists cfg1 cfg2,
    steps error (start error (Terminal hnd container args file))
          (interrupted hnd container args file socks attached state) cfg1
    /\ returned error cfg1 = Some nil
    /\ steps error cfg1 (late_copy file attached written ended) cfg2
    /\ crashed error cfg2 = true
    /\ In (Ev_panic 2 (A_send 0 (copy_error ended)))
          (late_copy file attached written ended).
Proof.
  destruct (interrupted_run socks attached state written ended)
    as (cfg1 & cfg2 & H1 & H2 & H3 & H4).
  exists cfg1, cfg2. repeat (split; [assumption | ]).
  simpl. auto.
Qed.

End LateCopy.

Section OtherMethods.
Context {imp : Imported}.

Lemma sequential_bind (P : forall X : Type, call X -> Prop) {A B : Type}
    (p : prog A) (f : A -> prog B) :
  sequential P p -> (forall a, sequential P (f a)) -> sequential P (bind p f).
Proof.
  revert B f. induction p as [A a | A X c k IH | A k IH | A ch v k IH
                             | A ch k IH | A ch k IH | A g IHg k IH];
    intros B f Hp Hf; simpl in *; try contradiction; auto.
  destruct Hp. split; auto.
Qed.

Lemma sequential_for_range (P : forall X : Type, call X -> Prop) {X St : Type}
    (xs : list X) (st : St) (body : X -> St -> prog St) :
  (forall x st, sequential P (body x st)) ->
  sequential P (for_range xs st body).
Proof.
  intros Hbody. revert st. induction xs as [|x xs IH]; intros st; simpl; [exact I | ].
  apply sequential_bind; auto.
Qed.

Lemma sequential_for_range_return (P : forall X : Type, call X -> Prop)
    {X R : Type} (xs : list X) (idx : nat) (body : nat -> X -> prog (option R))
    (after : prog R) :
  (forall i x, sequential P (body i x)) -> sequential P after ->
  sequential P (for_range_return idx xs body after).
Proof.
  intros Hbody Hafter. revert idx.
  induction xs as [|x xs IH]; intros idx; simpl; [exact Hafter | ].
  apply sequential_bind; [apply Hbody | ].
  intros [v | ]; [exact I | apply IH].
Qed.

Ltac plain :=
  repeat first
    [ exact I
    | match goal with
      | |- sequential _ (bind _ _) => apply sequential_bind; [ | intros ]
      | |- sequential _ (for_range _ _ _) => apply sequential_for_range; intros
      | |- sequential _ (for_range_return _ _ _ _) =>
          apply sequential_for_range_return; intros
      | |- sequential _ (if ?b then _ else _) => destruct b
      | |- sequential _ (match ?x with (_, _) => _ end) => destruct x
      | |- sequential _ (match ?x with Some _ => _ | None => _ end) => destruct x
      | |- sequential _ (perform _) => split; [simpl; auto | intros; exact I]
      | |- sequential _ (Ret _) => exact I
      end ].

Lemma invoke_plain (hnd : Handle) (op : operation) :
  is_Terminal op = false -> sequential (plain_call hnd) (invoke hnd op).
Proof.
  destruct op; simpl is_Terminal; intros Hop; try discriminate Hop;
    unfold invoke; apply sequential_bind; try (intros; exact I).
  - unfold Exec. plain.
  - unfold GetPrefixedContainers. plain.
  - unfold GetPrefixedVolumes. plain.
  - unfold FindPrefixedContainer, GetPrefixedContainers. plain.
  - unfold RemoveVolumes. plain.
  - unfold RemoveContainer. plain.
  - unfold CreateNamedVolume. plain.
  - unfold CreateContainer. plain.
  - unfold StopContainer. plain.
  - unfold StartContainer. plain.
  - unfold WaitContainer. plain.
  - unfold PullImage. plain.
Qed.

Lemma invoke_all_plain (hnd : Handle) (ops : list operation) :
  forallb (fun op => negb (is_Terminal op)) ops = true ->
  sequential (plain_call hnd) (invoke_all hnd ops).
Proof.
  induction ops as [|op ops IH]; simpl; intros Hops; [exact I | ].
  apply andb_true_iff in Hops. destruct Hops as (Hop & Hops).
  apply sequential_bind; [ | intros; auto].
  apply invoke_plain. now destruct (is_Terminal op).
Qed.

(** A program of calls only runs in one thread, one call at a time. *)
Lemma sequential_steps (P : forall X : Type, call X -> Prop) {R : Type}
    (cfg cfg' : config R) (tr : list event) :
  steps R cfg tr cfg' ->
  forall p, threads R cfg = [Main p] -> sequential P p ->
  (exists p', threads R cfg' = [Main p'] /\ sequential P p')
  /\ closed R cfg' = closed R cfg
  /\ crashed R cfg' = crashed R cfg
  /\ Forall (fun e => exists X (c : call X) (x : X),
                        e = Ev 0 (A_call c x) /\ P X c) tr.
Proof.
  induction 1 as [cfg | cfg e cfg' tr cfg'' Hstep Hsteps IH]; intros p Hth Hp.
  - split; [exists p; auto | auto].
  - assert (Hone : exists X (c : call X) (x : X) (k : X -> prog R),
               p = Do c k /\ e = Ev 0 (A_call c x)
               /\ threads R cfg' = [Main (k x)]
               /\ closed R cfg' = closed R cfg
               /\ crashed R cfg' = crashed R cfg).
    { destruct Hstep as [ts cl i t a t' spawn cl' Hi Ht Hsolo
                        | ts cl s r ts1 ts1' tr1 tr1' ch v Hsr Hs Hr Hts Htr Hcl
                        | ts cl i t a t' Hi Ht Hpanic]; simpl in Hth; subst ts.
      - destruct i as [|i]; [ | destruct i; discriminate Hi].
        simpl in Hi. injection Hi as <-.
        destruct Ht as (p' & Hl & ->).
        destruct p; simpl in Hp; try contradiction; simpl in Hl; try contradiction.
        destruct Hl as (x & -> & ->). simpl in Hsolo. destruct Hsolo as (-> & ->).
        exists X, c, x, k. simpl. auto.
      - exfalso. apply Hsr.
        destruct s as [|s]; [ | destruct s; discriminate Hs].
        destruct r as [|r]; [ | destruct r; discriminate Hr].
        reflexivity.
      - exfalso.
        destruct i as [|i]; [ | destruct i; discriminate Hi].
        simpl in Hi. injection Hi as <-.
        destruct Ht as (p' & Hl & ->).
        destruct p; simpl in Hp; try contradiction; simpl in Hl; try contradiction.
        destruct Hl as (x & -> & ->). exact Hpanic. }
    destruct Hone as (X & c & x & k & -> & -> & Hth' & Hcl & Hcr).
    destruct Hp as (Hc & Hk).
    destruct (IH _ Hth' (Hk x)) as (Hend & Hcl' & Hcr' & Hall).
    split; [exact Hend | ].
    split; [congruence | ]. split; [congruence | ].
    constructor; [ | exact Hall]. exists X, c, x. auto.
Qed.

(** X15. Only [Terminal] is concurrent. A caller that uses a handle for any
    sequence of the other methods stays alone: every event of every run is a
    call of the caller, and the call is a log line, a sleep, or a varlink call
    on the context and the connection of the handle; no channel is made, no
    goroutine is started, nothing panics. *)
Theorem other_methods_stay_in_the_caller (hnd : Handle) (ops : list operation)
    (tr : list event) (cfg : config unit) :
  forallb (fun op => negb (is_Terminal op)) ops = true ->
  steps unit (start unit (invoke_all hnd ops)) tr cfg ->
  length (threads unit cfg) = 1
  /\ closed unit cfg = []
  /\ crashed unit cfg = false
  /\ spawned unit tr = []
  /\ Forall (fun e => exists X (c : call X) (x : X),
                        e = Ev 0 (A_call c x) /\ plain_call hnd X c) tr.
Proof.
  intros Hops Hsteps.
  destruct (sequential_steps (plain_call hnd) _ _ _ Hsteps _ eq_refl
              (invoke_all_plain hnd ops Hops))
    as ((p' & Hth & _) & Hcl & Hcr & Hall).
  split; [now rewrite Hth | ].
  split; [exact Hcl | ]. split; [exact Hcr | ].
  split; [ | exact Hall].
  clear -Hall. induction Hall as [|e tr He _ IH]; [reflexivity | ].
  destruct He as (X & c & x & -> & _). simpl. exact IH.
Qed.

End OtherMethods.

Section Panics.
Context {imp : Imported}.
Variables (hnd : Handle) (container : string) (args : list string) (file : File).

Lemma steps_In_split {R : Type} (cfg cfg'' : config R) (tr : list event) (e : event) :
  steps R cfg tr cfg'' -> In e tr ->
  exists tr0 tr1 c1 c2,
    tr = (tr0 ++ e :: tr1)%list
    /\ steps R cfg tr0 c1 /\ step R c1 e c2 /\ steps R c2 tr1 cfg''.
Proof.
  induction 1 as [cfg | cfg e0 cfg1 tr cfg'' Hstep Hsteps IH]; intros Hin.
  - contradiction.
  - destruct Hin as [-> | Hin].
    + exists [], tr, cfg, cfg1. repeat split; [apply steps_nil | exact Hstep | exact Hsteps].
    + destruct (IH Hin) as (tr0 & tr1 & c1 & c2 & -> & H0 & H1 & H2).
      exists (e0 :: tr0), tr1, c1, c2.
      repeat split; [eapply steps_cons; eassumption | exact H1 | exact H2].
Qed.

Lemma steps_closed {R : Type} (cfg cfg' : config R) (tr : list event) (ch : nat) :
  steps R cfg tr cfg' ->
  nth_error (closed R cfg') ch = Some true ->
  nth_error (closed R cfg) ch = Some true \/ exists j, In (Ev j (A_close ch)) tr.
Proof.
  induction 1 as [cfg | cfg e cfg1 tr cfg' Hstep Hsteps IH]; intros Hcl; [now left | ].
  destruct (IH Hcl) as [H1 | (j & Hj)].
  - destruct (step_closed _ _ _ _ _ Hstep H1) as [H0 | (j & ->)]; [now left | ].
    right. exists j. now left.
  - right. exists j. now right.
Qed.

Lemma steps_crashed {R : Type} (cfg cfg' : config R) (tr : list event) :
  steps R cfg tr cfg' ->
  crashed R cfg' = true ->
  crashed R cfg = true \/ exists i a, In (Ev_panic i a) tr.
Proof.
  induction 1 as [cfg | cfg e cfg1 tr cfg' Hstep Hsteps IH]; intros Hcr; [now left | ].
  destruct (IH Hcr) as [H1 | (i & a & Hin)].
  - right. destruct Hstep; simpl in H1; try discriminate H1.
    eexists _, _. left. reflexivity.
  - right. exists i, a. now right.
Qed.

Lemma trun_snoc {R : Type} (t t' t'' : thread R) (hist : list action) (a : action) :
  trun R t hist t' -> tstep R t' a t'' -> trun R t (hist ++ [a]) t''.
Proof.
  revert t. induction hist as [|b hist IH]; intros t H Hs; simpl in *.
  - subst t'. exists t''. now split.
  - destruct H as (t1 & Hb & H). exists t1. split; [exact Hb | now apply IH].
Qed.

Lemma snoc_firstn_length {T : Type} (h l : list T) (a : T) (k : nat) :
  (h ++ [a])%list = firstn k l -> In a l /\ length h < length l.
Proof.
  intros H. split.
  - apply (In_firstn a k). rewrite <- H. apply in_or_app. right. now left.
  - apply (f_equal (@length T)) in H. rewrite length_app in H. simpl in H.
    rewrite length_firstn in H. lia.
Qed.

(** X16. [Terminal] can bring the process down in one way only. In every
    run, a panic is the send of the result by one of the three goroutines
    that report on a channel the interrupt listener has closed before, after
    the signal; the caller and the listener never panic, and a process that
    crashed has met such a send. *)
Theorem Terminal_panics_only_after_interrupt (tr : list event) (cfg : config error) :
  steps error (start error (Terminal hnd container args file)) tr cfg ->
  (forall i a, In (Ev_panic i a) tr ->
     (i = 2 \/ i = 3 \/ i = 4)
     /\ exists ch v,
          a = A_send ch v
          /\ In (Ev 1 (A_close ch)) tr
          /\ proj 1 tr = [A_call signal_Notify tt; A_call signal_receive tt; A_close ch])
  /\ (crashed error cfg = true -> exists i a, In (Ev_panic i a) tr).
Proof.
  intros Hsteps. split.
  2:{ intros Hcr. destruct (steps_crashed _ _ _ Hsteps Hcr) as [H0 | H]; [discriminate H0 | exact H]. }
  intros i a Hin.
  destruct (steps_In_split _ _ _ _ Hsteps Hin) as (tr0 & tr1 & c1 & c2 & Htr & H0 & Hstep & _).
  assert (Hclosed : forall ch, nth_error (closed error c1) ch = Some true ->
                      In (Ev 1 (A_close ch)) tr0
                      /\ proj 1 tr0 = interrupt_history ch).
  { intros ch Hcl. destruct (steps_closed _ _ _ ch H0 Hcl) as [Hs | (j & Hj)].
    - simpl in Hs. now destruct ch.
    - assert (Ha : In (A_close ch) (proj j tr0)).
      { apply In_proj. exists (Ev j (A_close ch)). split; [exact Hj | ].
        simpl. rewrite Nat.eqb_refl. now left. }
      destruct (Terminal_close_in_proj hnd container args file _ _ _ _ H0 Ha) as (-> & Hp).
      now split. }
  assert (Hlater : forall ch, In (Ev 1 (A_close ch)) tr0 ->
                     In (Ev 1 (A_close ch)) tr
                     /\ proj 1 tr = interrupt_history ch).
  { intros ch Hj.
    assert (Hj' : In (Ev 1 (A_close ch)) tr).
    { rewrite Htr. apply in_or_app. now left. }
    split; [exact Hj' | ].
    apply (Terminal_close_in_proj hnd container args file tr cfg 1 ch Hsteps).
    apply In_proj. exists (Ev 1 (A_close ch)). split; [exact Hj' | ]. simpl. now left. }
  destruct (Terminal_pool hnd container args file _ _ H0) as ((p & _ & Hat) & _).
  destruct (steps_threads _ _ _ _ H0) as (_ & Hth).
  pose proof (steps_spawned _ _ _ (Terminal_go_flat hnd container args file) H0) as Hspawn.
  inversion Hstep as [ | | ts cl i0 t a0 t' Hi Ht Hpanic]; subst.
  specialize (Hth i). simpl threads in Hth. rewrite Hi in Hth.
  destruct Hth as (t0 & Ht0 & Hrun).
  pose proof (trun_snoc _ _ _ _ _ Hrun Ht) as Hrun'.
  simpl closed in Hclosed.
  destruct i as [|j].
  { exfalso. simpl in Ht0. injection Ht0 as <-.
    destruct (trun_Main _ _ _ Hrun') as (q & _ & Hq).
    apply Terminal_runs in Hq.
    destruct (Terminal_at_actions hnd container args file _ _ Hq) as (Hmain & _).
    assert (Ha : In a (proj 0 tr0 ++ [a])) by (apply in_or_app; right; now left).
    destruct (Hmain a Ha) as (Hno & _).
    destruct a; simpl in Hpanic; contradiction. }
  simpl in Ht0. rewrite Hspawn in Ht0.
  destruct (Terminal_spawns _ _ _ _ _ _ Hat)
    as [Hnone | (socks & attached & state & ch & n & rest & Hhist & Hgos)].
  { rewrite Hnone in Ht0. now destruct j. }
  rewrite Hgos in Ht0. apply nth_error_firstn_Some in Ht0.
  destruct j as [|[|[|[|j]]]]; simpl in Ht0; try (now destruct j);
    injection Ht0 as <-; destruct (trun_Goroutine _ _ _ Hrun') as (q & _ & Hq).
  - exfalso.
    destruct (interrupt_listener_runs _ _ _ Hq) as (k & Hk).
    destruct (snoc_firstn_length _ _ _ _ Hk) as (Ha & Hlen).
    simpl in Ha. destruct Ha as [<- | [<- | [<- | []]]]; simpl in Hpanic; try contradiction.
    destruct (Hclosed _ Hpanic) as (_ & Hfull). rewrite Hfull in Hlen.
    simpl in Hlen. lia.
  - destruct (copy_runs _ _ _ _ _ Hq) as (k & written & ended & Hk).
    destruct (snoc_firstn_length _ _ _ _ Hk) as (Ha & _).
    simpl in Ha. destruct Ha as [<- | [<- | []]]; simpl in Hpanic; try contradiction.
    split; [auto | ]. eexists _, _. split; [reflexivity | ].
    apply Hlater. exact (proj1 (Hclosed _ Hpanic)).
  - destruct (copy_runs _ _ _ _ _ Hq) as (k & written & ended & Hk).
    destruct (snoc_firstn_length _ _ _ _ Hk) as (Ha & _).
    simpl in Ha. destruct Ha as [<- | [<- | []]]; simpl in Hpanic; try contradiction.
    split; [auto | ]. eexists _, _. split; [reflexivity | ].
    apply Hlater. exact (proj1 (Hclosed _ Hpanic)).
  - destruct (exec_call_runs _ _ _ _ _ _ _ Hq) as (k & tty & err & Hk).
    destruct (snoc_firstn_length _ _ _ _ Hk) as (Ha & _).
    simpl in Ha. destruct Ha as [<- | [<- | [<- | []]]]; simpl in Hpanic; try contradiction.
    split; [auto | ]. eexists _, _. split; [reflexivity | ].
    apply Hlater. exact (proj1 (Hclosed _ Hpanic)).
Qed.

End Panics.

(** ** The further properties in the small world *)

(** X3, on the three containers of the small world: the prefix pack8s-node
    finds node01. *)
Lemma FindPrefixedContainer_on_listing_witness :
  engine demo_containers demo_volumes nil 0 _
    (ListContainers_Call (ctx demo_handle) (conn demo_handle)) 0
  = ((demo_containers, nil), 0)
  /\ exists cont err hist s',
       exec (engine demo_containers demo_volumes nil 0)
            (FindPrefixedContainer demo_handle "pack8s-node") 0
       = Some ((cont, err), hist, s')
       /\ cont = node01 /\ err = nil.
Proof.
  split; [reflexivity | ].
  destruct (FindPrefixedContainer_on_listing nat (engine demo_containers demo_volumes nil 0)
              demo_handle "pack8s-node" 0 0 demo_containers eq_refl)
    as (cont & err & hist & s' & E & _ & _ & Hone).
  exists cont, err, hist, s'. split; [exact E | ].
  exact (Hone node01 eq_refl).
Defined.

(** X4, on the same engine. *)
Lemma empty_prefix_selects_everything_witness :
  (exists hist s',
      exec (engine demo_containers demo_volumes nil 0)
           (GetPrefixedContainers demo_handle "") 0
      = Some ((demo_containers, nil), hist, s'))
  /\ (exists hist s',
      exec (engine demo_containers demo_volumes nil 0)
           (GetPrefixedVolumes demo_handle "") 0
      = Some ((demo_volumes, nil), hist, s')).
Proof.
  split.
  - exact (proj1 (empty_prefix_selects_everything nat
                    (engine demo_containers demo_volumes nil 0) demo_handle 0)
             demo_containers 0 eq_refl).
  - exact (proj2 (empty_prefix_selects_everything nat
                    (engine demo_containers demo_volumes nil 0) demo_handle 0)
             demo_volumes 0 eq_refl).
Defined.

(** X5, with the prefix pack8s- lengthened by node. *)
Lemma longer_prefix_narrows_witness :
  exists short long hist1 hist2 s' s'',
    exec (engine demo_containers demo_volumes nil 0)
         (GetPrefixedContainers demo_handle "pack8s-") 0
    = Some ((short, nil), hist1, s')
    /\ exec (engine demo_containers demo_volumes nil 0)
            (GetPrefixedContainers demo_handle ("pack8s-" ++ "node")) 0
       = Some ((long, nil), hist2, s'')
    /\ long = filter (fun cont => HasPrefix (Names cont) ("pack8s-" ++ "node")) short
    /\ forall cont, In cont long -> In cont short.
Proof.
  exact (longer_prefix_narrows nat (engine demo_containers demo_volumes nil 0)
           demo_handle "pack8s-" "node" 0 0 demo_containers eq_refl).
Defined.

(** X6, on two containers named a and a-1 and the name a. *)
Lemma exact_name_is_not_preferred_witness :
  let first := {| Id := "1"; Names := "a"; Status := "" |} in
  let second := {| Id := "2"; Names := "a-1"; Status := "" |} in
  exists hist s',
    exec (engine [first; second] [] nil 0) (FindPrefixedContainer demo_handle "a") 0
    = Some ((Container_zero,
             fmt_Errorf ("failed to found the container with name " ++ "a")),
            hist, s')
    /\ fmt_Errorf ("failed to found the container with name " ++ "a") <> @nil demo
    /\ fmt_v (rnd := demo_rendering)
         (fmt_Errorf ("failed to found the container with name " ++ "a"))
       = "failed to found the container with name " ++ "a".
Proof.
  intros first second.
  apply (exact_name_is_not_preferred (rnd := demo_rendering) nat
           (engine [first; second] [] nil 0)
           demo_handle "a" 0 0 [] [] [] first second eq_refl eq_refl).
  left. reflexivity.
Defined.

(** X9, on the session that ends at the attach call. *)
Lemma Terminal_starts_nothing_before_raw_mode_witness :
  exists cfg,
    steps error (start error demo_session) demo_trace_refused cfg
    /\ existsb raw_established (proj 0 demo_trace_refused) = false
    /\ length (threads error cfg) = 1.
Proof.
  destruct demo_run_refused as (cfg & Hsteps & _).
  exists cfg. split; [exact Hsteps | split; [reflexivity | ]].
  exact (proj1 (Terminal_starts_nothing_before_raw_mode demo_handle "node01" ["sh"]
                  demo_file demo_trace_refused cfg Hsteps eq_refl)).
Defined.

(** X10, on the session in which the exec call is refused. *)
Lemma Terminal_returns_only_on_completion_witness :
  exists cfg,
    steps error (start error demo_session) demo_trace cfg
    /\ returned error cfg = Some refused
    /\ existsb raw_established (proj 0 demo_trace) = true
    /\ exists errChan,
         In (A_recv errChan refused) (proj 0 demo_trace)
         /\ (In (Ev 0 (A_recv errChan refused)) demo_trace
             \/ exists s, In (Ev_comm s 0 errChan refused) demo_trace).
Proof.
  destruct demo_run as (cfg & Hsteps & Hret & _).
  exists cfg. split; [exact Hsteps | split; [exact Hret | split; [reflexivity | ]]].
  exact (Terminal_returns_only_on_completion demo_handle "node01" ["sh"] demo_file
           demo_trace cfg refused Hsteps Hret eq_refl).
Defined.

(** X11, on the same session. *)
Lemma Terminal_hands_over_at_most_once_witness :
  exists cfg,
    steps error (start error demo_session) demo_trace cfg
    /\ length (filter is_comm demo_trace) <= 1.
Proof.
  destruct demo_run as (cfg & Hsteps & _).
  exists cfg. split; [exact Hsteps | ].
  exact (Terminal_hands_over_at_most_once demo_handle "node01" ["sh"] demo_file
           demo_trace cfg Hsteps).
Defined.

(** X12, on the exec call of the same session. *)
Lemma Terminal_exec_options_witness :
  let opts := {| exec_Name := "node01"; exec_Tty := true;
                 exec_Privileged := true; exec_Cmd := ["sh"] |} in
  exists cfg,
    steps error (start error demo_session) demo_trace cfg
    /\ In (Ev 4 (A_call (terminal_IsTerminal (Fd demo_file)) (exec_Tty opts)))
          demo_trace.
Proof.
  intros opts.
  destruct demo_run as (cfg & Hsteps & _).
  exists cfg. split; [exact Hsteps | ].
  refine (proj2 (proj2 (Terminal_exec_options demo_handle "node01" ["sh"] demo_file
                          demo_trace cfg 4
                          (A_call (ExecContainer_Call (ctx demo_handle) (conn demo_handle)
                                     opts) refused)
                          opts Hsteps _ eq_refl))).
  cbn. auto 20.
Defined.

(** X13, on the session that ends with the interrupt. *)
Lemma Terminal_channel_closed_by_listener_witness :
  exists cfg,
    steps error (start error demo_session)
          (interrupted demo_handle "node01" ["sh"] demo_file demo_sockets demo_socket 1)
          cfg
    /\ proj 1 (interrupted demo_handle "node01" ["sh"] demo_file demo_sockets
                 demo_socket 1)
       = interrupt_history 0.
Proof.
  destruct (interrupted_run demo_handle "node01" ["sh"] demo_file demo_sockets
              demo_socket 1 0 end_of_stream) as (cfg & _ & Hsteps & _).
  exists cfg. split; [exact Hsteps | ].
  refine (proj2 (Terminal_channel_closed_by_listener demo_handle "node01" ["sh"]
                   demo_file _ cfg 1 0 Hsteps _)).
  cbn. auto 30.
Defined.

(** X15, on the two methods called one after the other. *)
Lemma other_methods_stay_in_the_caller_witness :
  exists cfg,
    steps unit (start unit (invoke_all demo_handle demo_calls)) demo_calls_trace cfg
    /\ length (threads unit cfg) = 1
    /\ crashed unit cfg = false.
Proof.
  destruct demo_calls_run as (cfg & Hsteps & _).
  exists cfg. split; [exact Hsteps | ].
  destruct (other_methods_stay_in_the_caller demo_handle demo_calls demo_calls_trace cfg
              eq_refl Hsteps) as (Hone & _ & Hcr & _).
  split; [exact Hone | exact Hcr].
Defined.

(** X16, on the session that ends with the interrupt, followed by the end of
    the copy to the terminal. *)
Lemma Terminal_panics_only_after_interrupt_witness :
  exists cfg,
    steps error (start error demo_session)
          (interrupted demo_handle "node01" ["sh"] demo_file demo_sockets demo_socket 1
           ++ late_copy demo_file demo_socket 0 end_of_stream)%list
          cfg
    /\ crashed error cfg = true
    /\ exists i a,
         In (Ev_panic i a)
            (interrupted demo_handle "node01" ["sh"] demo_file demo_sockets demo_socket 1
             ++ late_copy demo_file demo_socket 0 end_of_stream)%list.
Proof.
  destruct (interrupted_run demo_handle "node01" ["sh"] demo_file demo_sockets
              demo_socket 1 0 end_of_stream) as (cfg1 & cfg2 & H1 & _ & H2 & Hcr).
  pose proof (steps_app _ _ _ _ _ H1 H2) as Hsteps.
  exists cfg2. split; [exact Hsteps | split; [exact Hcr | ]].
  exact (proj2 (Terminal_panics_only_after_interrupt demo_handle "node01" ["sh"]
                  demo_file _ cfg2 Hsteps) Hcr).
Defined.
